(** * fluxlog: the asynchronous log shipper of go-flux

    A shallow embedding of [init.go] (buffer pools, the publish loop started
    by [NewLogger], [doEntry], [doMsg], [Close]) and of [log/logging.go]
    (the level-tagged convenience methods).

    Conventions.
    - Go values are Rocq values; a method that mutates its receiver returns
      the new receiver.
    - Goroutines are interleaved at the granularity of one loop iteration,
      one facade call, one statement of [Close].
    - What lives outside the two source files (the nsq producer, the capnp
      segment and its encoders, the gringo queue, [fmt.Sprintf]) is either a
      Section variable or a definition marked as modelled.
    - A segment and a payload are values.  What capnp keeps in the pooled byte slice a
      segment was built over, after [putBytes] has released that slice, is
      outside the sources and not modelled; nor is what the producer does
      with the payload after [PublishAsync] has returned.
    - The second goroutine of [NewLogger], which logs the failed
      transactions it receives on [done], and the configuration of the
      producer are modelled on their own ([drain_body], [NewLogger_cfg]);
      the [World] of the publish loop holds neither. *)

From Stdlib Require Import ZArith Ascii String.
From stdpp Require Import base decidable option list strings gmap pretty.
From Equations Require Import Equations.

Set Warnings "-register-all".

Open Scope Z_scope.

(** ** Go integers *)

(** [int] on the 64-bit targets: two's complement, wrapping. *)
Definition int_wrap (x : Z) : Z := (x + 2 ^ 63) mod 2 ^ 64 - 2 ^ 63.

(** [x++] *)
Definition int_incr (x : Z) : Z := int_wrap (x + 1).

(** ** Byte slices and [bytes.Buffer] *)

Abbreviation byte := Byte.byte.

(** A slice that starts at the beginning of its backing array: the array
    (its length is the capacity) and the slice length. *)
Record slice : Type := Slice { backing : list byte; len : nat }.

Definition cap (s : slice) : nat := length (backing s).

(** The bytes a reader of the slice sees. *)
Definition contents (s : slice) : list byte := take (len s) (backing s).

(** [make([]byte, l, c)] *)
Definition make_bytes (l c : nat) : slice := Slice (replicate c Byte.x00) l.

(** [s[0:hi]] (in range for [hi <= cap s]) *)
Definition slice_to (s : slice) (hi : nat) : slice := Slice (backing s) hi.

(** [s[0:]]: the upper bound of a slice expression defaults to [len(s)]. *)
Definition slice_from0 (s : slice) : slice := slice_to s (len s).

(** [append(s, p...)]: in place while the capacity suffices, otherwise a
    fresh array (the runtime picks its capacity; here exactly what is
    needed). *)
Definition append (s : slice) (p : list byte) : slice :=
  let c := contents s ++ p in
  if decide (length c <= cap s)%nat
  then Slice (c ++ drop (length c) (backing s)) (length c)
  else Slice c (length c).

(** [bytes.Buffer]: the bytes are [buf[off:]]. *)
Record Buffer : Type := MkBuffer { buf : slice; off : nat }.

(** [bytes.NewBuffer(b)] *)
Definition bytes_NewBuffer (b : slice) : Buffer := MkBuffer b 0.

(** [b.Len()] *)
Definition Buffer_Len (b : Buffer) : nat := (len (buf b) - off b)%nat.

(** [b.Bytes()] *)
Definition Buffer_Bytes (b : Buffer) : list byte := drop (off b) (contents (buf b)).

(** [b.Reset()]: [b.buf = b.buf[:0]; b.off = 0] *)
Definition Buffer_Reset (b : Buffer) : Buffer := MkBuffer (slice_to (buf b) 0) 0.

(** [b.Truncate(n)]: [Reset] for [n = 0]; otherwise keeps the first [n]
    unread bytes.  Go panics for [n] out of range; [None] here. *)
Definition Buffer_Truncate (b : Buffer) (n : nat) : option Buffer :=
  if decide (n = 0)%nat then Some (Buffer_Reset b)
  else if decide (n <= Buffer_Len b)%nat
       then Some (MkBuffer (slice_to (buf b) (off b + n)) (off b))
       else None.

(** [b.Write(p)] *)
Definition Buffer_Write (b : Buffer) (p : list byte) : Buffer :=
  MkBuffer (append (buf b) p) (off b).

(** ** sync.Pool *)

(** [p.Get()] may return any pooled item or none at all (it "may choose to
    ignore the pool and treat it as empty"); [pick] is that choice. *)
Definition Pool_Get {A} (pick : option nat) (pool : list A) : option A * list A :=
  match pick with
  | Some i =>
      match pool !! i with
      | Some x => (Some x, delete i pool)
      | None => (None, pool)
      end
  | None => (None, pool)
  end.

(** [p.Put(x)] *)
Definition Pool_Put {A} (x : A) (pool : list A) : list A := x :: pool.

(** The two package-level pools.  Both hold [interface{}] in Go; only
    [putBuffer] and [New] feed [bufferPool] and only [putBytes] and [New]
    feed [bytesPool], so the pools are typed here and the type assertions of
    [getBuffer] and [getBytes] cannot fail. *)
Record Pools : Type := MkPools { bufferPool : list Buffer; bytesPool : list slice }.

(** The choices the two [Get] calls of one checkout make. *)
Record Picks : Type := MkPicks { pickBuffer : option nat; pickBytes : option nat }.

(** [bytesPool.New] *)
Definition bytesPool_New : slice := make_bytes 0 100.

(** [getBytes]: note [bytes[0:]], which keeps the length. *)
Definition getBytes (pick : option nat) (p : Pools) : slice * Pools :=
  let '(got, rest) := Pool_Get pick (bytesPool p) in
  let bytes := default bytesPool_New got in
  let bytes := slice_from0 bytes in
  (bytes, MkPools (bufferPool p) rest).

(** [putBytes] *)
Definition putBytes (b : slice) (p : Pools) : Pools :=
  MkPools (bufferPool p) (Pool_Put b (bytesPool p)).

(** [getBuffer]: [bufferPool.New] is [bytes.NewBuffer(getBytes())]; the
    result is truncated to length 0 either way.  [None] is the panic of
    [Truncate]. *)
Definition getBuffer (pk : Picks) (p : Pools) : option (Buffer * Pools) :=
  let '(b, p') :=
    match Pool_Get (pickBuffer pk) (bufferPool p) with
    | (Some b, rest) => (b, MkPools rest (bytesPool p))
    | (None, _) =>
        let '(bs, p') := getBytes (pickBytes pk) p in (bytes_NewBuffer bs, p')
    end in
  b' ← Buffer_Truncate b 0;
  Some (b', p').

(** [putBuffer] *)
Definition putBuffer (b : Buffer) (p : Pools) : Pools :=
  MkPools (Pool_Put b (bufferPool p)) (bytesPool p).

(** ** Errors, levels, values *)

(** Go's [error] values that the package tells apart: the two sentinels of
    the nsq client, and everything else. *)
Inductive error : Type :=
| ErrNotConnected
| ErrStopped
| ErrOther (msg : string).

#[global] Instance error_eq_dec : EqDecision error.
Proof. solve_decision. Defined.

(** [type LogLevel int64] and its constants. *)
Definition LogLevel : Type := Z.
Definition DEBUG : LogLevel := 0.
Definition INFO : LogLevel := 1.
Definition WARN : LogLevel := 2.
Definition ERROR : LogLevel := 3.
Definition FATAL : LogLevel := 4.

(** [interface{}] values that occur as entry fields and as operands of the
    formatted methods. *)
Inductive Value : Type :=
| VInt (n : Z)
| VInt64 (n : Z)
| VString (s : string)
| VSlice (l : list Value).

(** [MAXBUFFERLENGTH]; declared and never read by the code. *)
Definition MAXBUFFERLENGTH : Z := 2000.

(** [maxDcount := 10] of the publish loop. *)
Definition maxDcount : Z := 10.

(** What the body of a [for] loop hands back to the loop: go on with the
    next iteration, leave the loop, or panic.  A [break] inside a [select]
    or a [switch] leaves that statement only, which is [LoopNext] when the
    statement is the last of the body. *)
Inductive LoopCtl : Type := LoopNext | LoopExit | LoopPanic.

(** Where [Close] stands. *)
Inductive ClosePc : Type :=
| CloseNotCalled
| CloseSending     (* blocked in [l.fexit <- sig{}] *)
| CloseSignalled   (* the send was received *)
| CloseDoneClosed  (* after [close(l.done)] *)
| CloseReturned.   (* after [l.w.Stop()] *)

#[global] Instance ClosePc_eq_dec : EqDecision ClosePc.
Proof. solve_decision. Defined.

(** [d++] moves the counter up, which is what ends the retry loop. *)
Lemma int_incr_gt (d : Z) : d <= maxDcount → d < int_incr d.
Proof.
  unfold maxDcount, int_incr, int_wrap. intros Hd.
  change (2 ^ 63) with 9223372036854775808.
  change (2 ^ 64) with 18446744073709551616.
  destruct (decide (- 9223372036854775808 <= d)) as [Hlo|Hlo].
  - rewrite Z.mod_small by lia. lia.
  - pose proof (Z.mod_pos_bound (d + 1 + 9223372036854775808)
                  18446744073709551616 eq_refl). lia.
Qed.

(** ** Stand-ins for the collaborators

    The theorems about the logger quantify over its collaborators.  The
    definitions of this part instantiate them at concrete inputs. *)

(** Modelled from the spec: the record encoder ([LogMsgtoSegment] and
    [EntrytoSegment] are defined in a file of the package that is not among
    the sources).  Section 2 calls it a pure function of the record;
    sections 4.3 and 6 give [encodeMessage(tag, level, text)] and
    [encodeEntry(tag, fields)], the latter rejecting values of unsupported
    shape.  A segment is what it was encoded from. *)
Inductive CapnSegment : Type :=
| SegFresh (data : slice)
| SegLogMsg (db : string) (level : LogLevel) (message : string)
| SegEntry (db : string) (fields : gmap string Value).

Definition model_NewBuffer (b : slice) : CapnSegment := SegFresh b.

Definition model_LogMsgtoSegment (seg : CapnSegment) (db : string)
    (level : LogLevel) (message : string) : CapnSegment :=
  SegLogMsg db level message.

(** Modelled from the spec: section 4.3 has the entry encoder reject values
    of unsupported shape and does not say which; here a slice is one. *)
Definition supported (v : Value) : bool :=
  match v with
  | VSlice _ => false
  | _ => true
  end.

Definition model_EntrytoSegment (seg : CapnSegment) (db : string)
    (e : gmap string Value) : CapnSegment * option error :=
  if decide (map_Forall (λ _ v, supported v = true) e)
  then (SegEntry db e, None)
  else (seg, Some (ErrOther "unsupported value")).



Definition segment_time (s : CapnSegment) : option Value :=
  match s with
  | SegEntry _ fields => fields !! "time"
  | _ => None
  end.

(** A stand-in for the capnp wire format: a message renders to the bytes of
    its text, an entry to those of its tag, a fresh segment to nothing. *)
Definition stub_WriteTo (s : CapnSegment) : list byte :=
  match s with
  | SegFresh _ => []
  | SegLogMsg _ _ message => String.list_byte_of_string message
  | SegEntry db _ => String.list_byte_of_string db
  end.

(** A producer that answers from a script: one answer per call, success
    once the script is used up, [ErrStopped] after [Stop]. *)
Record Scripted : Type := MkScripted {
  answers : list (option error);
  stopped : bool;
  accepted : list (string * list byte);
}.

Definition scripted_PublishAsync (p : Scripted) (topic : string) (body : list byte)
    : Scripted * option error :=
  if stopped p then (p, Some ErrStopped)
  else
    match answers p with
    | Some e :: rest => (MkScripted rest false (accepted p), Some e)
    | None :: rest => (MkScripted rest false (accepted p ++ [(topic, body)]), None)
    | [] => (MkScripted [] false (accepted p ++ [(topic, body)]), None)
    end.

Definition scripted_Stop (p : Scripted) : Scripted :=
  MkScripted (answers p) true (accepted p).

(** A fragment of [fmt.Sprintf]: the verbs [%v], [%d], [%s] and [%%]
    without flags, width or precision, over integers, strings and
    [[]interface{}].  Other directives are outside this model. *)
Definition type_name (v : Value) : string :=
  match v with
  | VInt _ => "int"
  | VInt64 _ => "int64"
  | VString _ => "string"
  | VSlice _ => "[]interface {}"
  end.

Fixpoint join (sep : string) (l : list string) : string :=
  match l with
  | [] => ""
  | [x] => x
  | x :: rest => x +:+ sep +:+ join sep rest
  end.

Definition bad_verb (verb : ascii) (ty val : string) : string :=
  "%!" +:+ String verb ("(" +:+ ty +:+ "=" +:+ val +:+ ")").

(** One operand under one verb; a slice prints its elements under the
    same verb, between brackets. *)
Fixpoint fmt_value (verb : ascii) (v : Value) : string :=
  match v with
  | VInt n | VInt64 n =>
      if decide (verb = "v"%char ∨ verb = "d"%char) then pretty n
      else bad_verb verb (type_name v) (pretty n)
  | VString s =>
      if decide (verb = "v"%char ∨ verb = "s"%char) then s
      else bad_verb verb "string" s
  | VSlice l => "[" +:+ join " " (List.map (fmt_value verb) l) +:+ "]"
  end.

(** Operands left over when the format is used up. *)
Definition extra (a : list Value) : string :=
  match a with
  | [] => ""
  | _ =>
      "%!(EXTRA "
      +:+ join ", " (List.map (λ v, type_name v +:+ "=" +:+ fmt_value "v" v) a)
      +:+ ")"
  end.

(** [fmt.Sprintf(format, a...)]: [a] is the operand list. *)
Fixpoint Sprintf (format : string) (a : list Value) : string :=
  match format with
  | EmptyString => extra a
  | String "%" EmptyString => "%!(NOVERB)" +:+ extra a
  | String "%" (String c rest) =>
      if decide (c = "%"%char) then String "%" (Sprintf rest a)
      else
        match a with
        | [] => "%!" +:+ String c ("(MISSING)" +:+ Sprintf rest [])
        | v :: a' => fmt_value c v +:+ Sprintf rest a'
        end
  | String c rest => String c (Sprintf rest a)
  end.

(** ** The Logger and its goroutines *)

Section Fluxlog.

(** The external collaborators.  [Segment] is [*capn.Segment], [Producer]
    is [*nsq.Producer]; a call that mutates the object returns the new
    one. *)
Context {Segment Producer : Type}.
(** [capn.NewBuffer] *)
Variable capn_NewBuffer : slice → Segment.
(** [LogMsgtoSegment(seg, db, level, message)] *)
Variable LogMsgtoSegment : Segment → string → LogLevel → string → Segment.
(** [EntrytoSegment(seg, db, e)] *)
Variable EntrytoSegment : Segment → string → gmap string Value → Segment * option error.
(** [seg.WriteTo(buf)]: the bytes written. *)
Variable Segment_WriteTo : Segment → list byte.
(** [w.PublishAsync(topic, body, done, nil)] *)
Variable PublishAsync : Producer → string → list byte → Producer * option error.
(** [w.Stop()] *)
Variable Producer_Stop : Producer → Producer.
(** [fmt.Sprintf(format, a...)], [a] being the operand list *)
Variable fmt_Sprintf : string → list Value → string.

(** [type Logger struct].  [list_] is the gringo queue, oldest first;
    [done] records whether the channel has been closed ([fexit], an
    unbuffered channel, holds nothing: a send on it is [CloseSending]). *)
Record Logger : Type := MkLogger {
  w : Producer;
  list_ : list Segment;
  Topic : string;
  DbName : string;
  done : bool;
}.

(** What an observer of the system sees. *)
Inductive Event : Type :=
| EvWrite (seg : Segment)                          (* [l.list.Write(seg)] *)
| EvRead (seg : Segment)                           (* [l.list.Read()], non-nil *)
| EvPublish (topic : string) (body : list byte) (err : option error)
| EvSleep (ms : Z)                                 (* [time.Sleep] *)
| EvLog (err : error)                              (* [log.Print(err)] *)
| EvStop                                           (* receive on [fexit] *)
| EvCloseDone                                      (* [close(l.done)] *)
| EvSinkStop.                                      (* [l.w.Stop()] *)

(** The logger, the package-level pools, the locals of the publish loop
    that outlive an iteration, and the two threads' positions. *)
Record World : Type := MkWorld {
  logger : Logger;
  pools : Pools;
  dcount : Z;
  loop : LoopCtl;
  close_pc : ClosePc;
  trace : list Event;
}.

Definition set_w (x : Producer) (l : Logger) : Logger :=
  MkLogger x (list_ l) (Topic l) (DbName l) (done l).
Definition set_list (q : list Segment) (l : Logger) : Logger :=
  MkLogger (w l) q (Topic l) (DbName l) (done l).
Definition set_done (b : bool) (l : Logger) : Logger :=
  MkLogger (w l) (list_ l) (Topic l) (DbName l) b.

(** Modelled from the spec: the gringo queue (package
    github.com/philhofer/gringo, not among the sources) as the FIFO of
    section 4.2: [Write] never fails, [Read] returns the oldest record or
    nil on an empty queue. *)
Definition Gringo_Write (seg : Segment) (q : list Segment) : list Segment := q ++ [seg].
Definition Gringo_Read (q : list Segment) : option Segment * list Segment :=
  match q with
  | [] => (None, [])
  | seg :: rest => (Some seg, rest)
  end.

(** [NewLogger], after the producer has been built and configured: the
    logger, and both goroutines about to start. *)
Definition NewLogger (topic dbName : string) (prod : Producer) (p : Pools) : World :=
  MkWorld (MkLogger prod [] topic dbName false) p 0 LoopNext CloseNotCalled [].

(** *** The publish loop *)

(** From the label [pub:] to the end of the [if err != nil] statement:
    the producer, [dcount] and the events. *)
Equations? pub (prod : Producer) (topic : string) (body : list byte) (d : Z)
  : Producer * Z * list Event by wf (Z.to_nat (maxDcount + 1 - d)) lt :=
pub prod topic body d with PublishAsync prod topic body := {
  | (prod', None) := (prod', 0, [EvPublish topic body None]);
  | (prod', Some ErrNotConnected) with decide (d > maxDcount) := {
    | left _ := (prod', d, [EvPublish topic body (Some ErrNotConnected)]);
    | right _ :=
        let r := pub prod' topic body (int_incr d) in
        (r.1.1, r.1.2,
         EvPublish topic body (Some ErrNotConnected) :: EvSleep 100 :: r.2) };
  | (prod', Some ErrStopped) :=
      (prod', d, [EvPublish topic body (Some ErrStopped)]);
  | (prod', Some (ErrOther m)) :=
      (prod', d, [EvPublish topic body (Some (ErrOther m)); EvLog (ErrOther m)]) }.
Proof.
  pose proof (int_incr_gt d). unfold maxDcount in *. lia.
Qed.

(** One iteration of the [for] of the first goroutine. *)
Definition loop_body (pk : Picks) (st : World) : World * LoopCtl :=
  let l := logger st in
  if decide (close_pc st = CloseSending) then
    (* case <-l.fexit: break *)
    (MkWorld l (pools st) (dcount st) (loop st) CloseSignalled (trace st ++ [EvStop]),
     LoopNext)
  else
    match Gringo_Read (list_ l) with
    | (None, _) => (st, LoopNext)                       (* continue *)
    | (Some seg, rest) =>
        let t := trace st ++ [EvRead seg] in
        match getBuffer pk (pools st) with
        | None =>
            (MkWorld (set_list rest l) (pools st) (dcount st) (loop st) (close_pc st) t,
             LoopPanic)
        | Some (buf, p1) =>
            let buf := Buffer_Write buf (Segment_WriteTo seg) in
            if decide (Buffer_Len buf = 0)%nat then
              (* continue *)
              (MkWorld (set_list rest l) p1 (dcount st) (loop st) (close_pc st) t,
               LoopNext)
            else
              let r := pub (w l) (Topic l) (Buffer_Bytes buf) (dcount st) in
              (MkWorld (set_w r.1.1 (set_list rest l)) (putBuffer buf p1) r.1.2
                 (loop st) (close_pc st) (t ++ r.2),
               LoopNext)
        end
    end.

(** The goroutine: an iteration runs only while the loop is running. *)
Definition loop_step (pk : Picks) (st : World) : World :=
  match loop st with
  | LoopNext =>
      let '(st', c) := loop_body pk st in
      MkWorld (logger st') (pools st') (dcount st') c (close_pc st') (trace st')
  | _ => st
  end.

(** *** The facade *)

(** [doMsg] *)
Definition doMsg (pick : option nat) (level : LogLevel) (message : string)
    (st : World) : World :=
  let l := logger st in
  let '(buf, p1) := getBytes pick (pools st) in
  let seg := capn_NewBuffer buf in
  let seg := LogMsgtoSegment seg (DbName l) level message in
  MkWorld (set_list (Gringo_Write seg (list_ l)) l) (putBytes buf p1)
    (dcount st) (loop st) (close_pc st) (trace st ++ [EvWrite seg]).

(** [doEntry]: [now] is [time.Now().Unix()].  The map is shared with the
    caller, who sees the stamped map. *)
Definition doEntry (pick : option nat) (now : Z) (e : gmap string Value)
    (st : World) : World * gmap string Value * option error :=
  let l := logger st in
  let e := <["time" := VInt64 now]> e in
  let '(buf, p1) := getBytes pick (pools st) in
  let seg := capn_NewBuffer buf in
  let '(seg, err) := EntrytoSegment seg (DbName l) e in
  match err with
  | Some _ =>
      (MkWorld l p1 (dcount st) (loop st) (close_pc st) (trace st), e, err)
  | None =>
      (MkWorld (set_list (Gringo_Write seg (list_ l)) l) (putBytes buf p1)
         (dcount st) (loop st) (close_pc st) (trace st ++ [EvWrite seg]), e, None)
  end.

(** [Close], one statement at a time.  The send on the unbuffered [fexit]
    completes when the loop receives it (see [loop_body]). *)
Definition close_step (st : World) : World :=
  let l := logger st in
  match close_pc st with
  | CloseNotCalled =>
      MkWorld l (pools st) (dcount st) (loop st) CloseSending (trace st)
  | CloseSending => st
  | CloseSignalled =>
      MkWorld (set_done true l) (pools st) (dcount st) (loop st) CloseDoneClosed
        (trace st ++ [EvCloseDone])
  | CloseDoneClosed =>
      MkWorld (set_w (Producer_Stop (w l)) l) (pools st) (dcount st) (loop st)
        CloseReturned (trace st ++ [EvSinkStop])
  | CloseReturned => st
  end.

(** *** log/logging.go *)

(** The plain methods. *)
Definition Info (pick : option nat) (v : string) : World → World := doMsg pick INFO v.
Definition Debug (pick : option nat) (v : string) : World → World := doMsg pick DEBUG v.
Definition Warn (pick : option nat) (v : string) : World → World := doMsg pick WARN v.
Definition Error (pick : option nat) (v : string) : World → World := doMsg pick ERROR v.
Definition Fatal (pick : option nat) (v : string) : World → World := doMsg pick FATAL v.

(** [Log] *)
Definition Log (pick : option nat) (level : LogLevel) (v : string) : World → World :=
  doMsg pick level v.

(** The formatted methods call [fmt.Sprintf(format, args)]: the variadic
    parameter [args] is passed on as one operand, a [[]interface{}]. *)
Definition Infof (pick : option nat) (format : string) (args : list Value)
    : World → World := doMsg pick INFO (fmt_Sprintf format [VSlice args]).
Definition Debugf (pick : option nat) (format : string) (args : list Value)
    : World → World := doMsg pick DEBUG (fmt_Sprintf format [VSlice args]).
Definition Warnf (pick : option nat) (format : string) (args : list Value)
    : World → World := doMsg pick WARN (fmt_Sprintf format [VSlice args]).
Definition Errorf (pick : option nat) (format : string) (args : list Value)
    : World → World := doMsg pick ERROR (fmt_Sprintf format [VSlice args]).
Definition Fatalf (pick : option nat) (format : string) (args : list Value)
    : World → World := doMsg pick FATAL (fmt_Sprintf format [VSlice args]).

(** The plain and the formatted method of a level. *)
Definition plain (level : LogLevel) (pick : option nat) (v : string) : World → World :=
  if decide (level = DEBUG) then Debug pick v
  else if decide (level = INFO) then Info pick v
  else if decide (level = WARN) then Warn pick v
  else if decide (level = ERROR) then Error pick v
  else Fatal pick v.

Definition formatted (level : LogLevel) (pick : option nat) (format : string)
    (args : list Value) : World → World :=
  if decide (level = DEBUG) then Debugf pick format args
  else if decide (level = INFO) then Infof pick format args
  else if decide (level = WARN) then Warnf pick format args
  else if decide (level = ERROR) then Errorf pick format args
  else Fatalf pick format args.

(** *** Interleavings *)

(** What the threads of a program do, one step each: the publish loop runs
    an iteration, a caller logs a message or an entry, the closer runs the
    next statement of [Close]. *)
Inductive Action : Type :=
| ActLoop (pk : Picks)
| ActMsg (pick : option nat) (level : LogLevel) (message : string)
| ActEntry (pick : option nat) (now : Z) (e : gmap string Value)
| ActClose.

Definition step (st : World) (a : Action) : World :=
  match a with
  | ActLoop pk => loop_step pk st
  | ActMsg pick level message => doMsg pick level message st
  | ActEntry pick now e => (doEntry pick now e st).1.1
  | ActClose => close_step st
  end.

Definition run (acts : list Action) (st : World) : World := foldl step st acts.

(** *** Reading a trace *)

(** The records written to the queue, in order. *)
Definition enqueued (t : list Event) : list Segment :=
  omap (λ e, match e with EvWrite s => Some s | _ => None end) t.

(** The records the loop took from the queue, in order. *)
Definition dequeued (t : list Event) : list Segment :=
  omap (λ e, match e with EvRead s => Some s | _ => None end) t.

(** The publish attempts, in order: payload and answer. *)
Definition attempts (t : list Event) : list (list byte * option error) :=
  omap (λ e, match e with EvPublish _ b r => Some (b, r) | _ => None end) t.

(** The records submitted to the sink, in order: a record is submitted by
    the first publish attempt after it was read; [cur] is the record read
    and not yet submitted.  Further attempts are retries. *)
Fixpoint submitted_from (cur : option Segment) (t : list Event)
    : list (Segment * list byte) :=
  match t with
  | [] => []
  | EvRead s :: t' => submitted_from (Some s) t'
  | EvPublish _ body _ :: t' =>
      match cur with
      | Some s => (s, body) :: submitted_from None t'
      | None => submitted_from None t'
      end
  | _ :: t' => submitted_from cur t'
  end.

Definition submitted (t : list Event) : list (Segment * list byte) :=
  submitted_from None t.

(** The steps of the shutdown, as far as the trace shows them, and as far
    as [Close] has got. *)
Inductive ShutdownStep : Type := SignalReceived | DoneClosed | SinkStopped.

Definition shutdown_steps (t : list Event) : list ShutdownStep :=
  omap (λ e, match e with
             | EvStop => Some SignalReceived
             | EvCloseDone => Some DoneClosed
             | EvSinkStop => Some SinkStopped
             | _ => None
             end) t.

Definition steps_done (pc : ClosePc) : list ShutdownStep :=
  match pc with
  | CloseNotCalled | CloseSending => []
  | CloseSignalled => [SignalReceived]
  | CloseDoneClosed => [SignalReceived; DoneClosed]
  | CloseReturned => [SignalReceived; DoneClosed; SinkStopped]
  end.

(** *** Describing an iteration and an interleaving *)

(** An event that [pub] emits after its first attempt. *)
Definition retry_event (topic : string) (body : list byte) (e : Event) : Prop :=
  match e with
  | EvPublish t b _ => t = topic ∧ b = body
  | EvSleep _ | EvLog _ => True
  | _ => False
  end.

(** A publish attempt carries at least one byte. *)
Definition publish_nonempty (e : Event) : Prop :=
  match e with
  | EvPublish _ b _ => b ≠ []
  | _ => True
  end.

(** A stretch of events that starts no submission of an earlier record. *)
Definition closed_chunk (evs : list Event) : Prop :=
  ∀ cur, submitted_from cur evs = submitted_from None evs.

(** What one iteration of the loop does, case by case. *)
Inductive IterOutcome (pk : Picks) (st : World) : World → Prop :=
| IterStop :
    close_pc st = CloseSending →
    IterOutcome pk st
      (MkWorld (logger st) (pools st) (dcount st) (loop st) CloseSignalled
         (trace st ++ [EvStop]))
| IterIdle :
    close_pc st ≠ CloseSending →
    list_ (logger st) = [] →
    IterOutcome pk st st
| IterDiscard seg rest b0 p1 :
    close_pc st ≠ CloseSending →
    list_ (logger st) = seg :: rest →
    getBuffer pk (pools st) = Some (Buffer_Reset b0, p1) →
    Segment_WriteTo seg = [] →
    IterOutcome pk st
      (MkWorld (set_list rest (logger st)) p1 (dcount st) (loop st) (close_pc st)
         (trace st ++ [EvRead seg]))
| IterPublish seg rest b0 p1 :
    close_pc st ≠ CloseSending →
    list_ (logger st) = seg :: rest →
    getBuffer pk (pools st) = Some (Buffer_Reset b0, p1) →
    Segment_WriteTo seg ≠ [] →
    let l := logger st in
    let r := pub (w l) (Topic l) (Segment_WriteTo seg) (dcount st) in
    IterOutcome pk st
      (MkWorld (set_w r.1.1 (set_list rest l))
         (putBuffer (Buffer_Write (Buffer_Reset b0) (Segment_WriteTo seg)) p1)
         r.1.2 (loop st) (close_pc st) ((trace st ++ [EvRead seg]) ++ r.2)).

(** The invariant of every interleaving: the loop is running, the queue
    holds what was written and not yet read, the records submitted are the
    records read that render to something, each with its rendering, and no
    publish attempt carries an empty payload. *)
Record Inv (st : World) : Prop := MkInv {
  inv_loop : loop st = LoopNext;
  inv_queue : enqueued (trace st) = dequeued (trace st) ++ list_ (logger st);
  inv_submitted :
    submitted (trace st)
    = (λ s, (s, Segment_WriteTo s))
        <$> filter (λ s, Segment_WriteTo s ≠ []) (dequeued (trace st));
  inv_nonempty : Forall publish_nonempty (trace st);
}.

(** The sleeps of the loop, in milliseconds, and the errors it printed. *)
Definition sleeps (t : list Event) : list Z :=
  omap (λ e, match e with EvSleep ms => Some ms | _ => None end) t.

Definition logged (t : list Event) : list error :=
  omap (λ e, match e with EvLog err => Some err | _ => None end) t.

(** The topics of the publish attempts. *)
Definition topics (t : list Event) : list string :=
  omap (λ e, match e with EvPublish topic _ _ => Some topic | _ => None end) t.

End Fluxlog.

(** ** Construction *)

(** The values [Config.Set] is given by this package. *)
Inductive ConfigValue : Type :=
| CBool (b : bool)
| CInt (n : Z)
| CString (s : string).

Section Construction.

(** [Config] is [*nsq.Config]; [defaultConfig] is one object shared by every
    call of [NewLogger], so [Set] on it returns the object as the next call
    finds it. *)
Context {Segment Producer Config : Type}.
(** [c.Set(option, value)] *)
Variable Config_Set : Config → string → ConfigValue → Config * option error.
(** [nsq.NewProducer(addr, config)] *)
Variable nsq_NewProducer : string → Config → Producer.
(** [prod.SetLogger(log.New(os.Stdout, "", 0), nsq.LogLevelDebug)] *)
Variable Producer_SetLogger : Producer → Producer.

(** [init], the configuration: [fresh] is [nsq.NewConfig()]; the errors of
    the three [Set] calls are dropped. *)
Definition init_config (fresh : Config) : Config :=
  let c := (Config_Set fresh "verbose" (CBool false)).1 in
  let c := (Config_Set c "snappy" (CBool true)).1 in
  (Config_Set c "max_in_flight" (CInt 100)).1.

(** [NewLogger] in full: [cfg] is [defaultConfig] as the call finds it, the
    first component of the result is [defaultConfig] as the call leaves it,
    the second is the logger with its goroutines started, or the error. *)
Definition NewLogger_cfg (topic dbName nsqdAddr secret : string) (cfg : Config)
    (p : Pools) : Config * (@World Segment Producer + error) :=
  let '(cfg1, err) :=
    if decide (secret ≠ "")
    then Config_Set cfg "auth_secret" (CString secret)
    else (cfg, None) in
  match err with
  | Some e => (cfg1, inr e)
  | None =>
      let prod := nsq_NewProducer nsqdAddr cfg1 in
      let prod := Producer_SetLogger prod in
      (cfg1, inl (NewLogger topic dbName prod p))
  end.

End Construction.

(** ** The completion channel and the second goroutine *)

(** [nsq.ProducerTransaction], the two fields the package reads. *)
Record ProducerTransaction : Type := MkTransaction {
  pt_Error : option error;
  pt_Args : list Value;
}.

(** [make(chan *nsq.ProducerTransaction, 16)]: the values buffered, oldest
    first, and whether the channel was closed. *)
Record Chan : Type := MkChan { ch_buf : list ProducerTransaction; ch_closed : bool }.

Definition done_capacity : nat := 16.

Definition make_done : Chan := MkChan [] false.

(** The channel, the loop over it, the lines it printed (the error and the
    arguments that [log.Printf] formats) and whether a goroutine has
    panicked, which ends the program.  [dw_sent] and [dw_received] record
    the values that went into and came out of the channel. *)
Record DrainWorld : Type := MkDrainWorld {
  dw_chan : Chan;
  dw_ctl : LoopCtl;
  dw_printed : list (error * list Value);
  dw_panicked : bool;
  dw_sent : list ProducerTransaction;
  dw_received : list ProducerTransaction;
}.

Definition drain_init : DrainWorld := MkDrainWorld make_done LoopNext [] false [] [].

(** [done <- pd] by the producer: a panic on a closed channel, no progress
    on a full one. *)
Definition chan_send (pd : ProducerTransaction) (dw : DrainWorld) : DrainWorld :=
  let c := dw_chan dw in
  if ch_closed c then
    MkDrainWorld c (dw_ctl dw) (dw_printed dw) true (dw_sent dw) (dw_received dw)
  else if decide (length (ch_buf c) < done_capacity)%nat then
    MkDrainWorld (MkChan (ch_buf c ++ [pd]) false) (dw_ctl dw) (dw_printed dw)
      (dw_panicked dw) (dw_sent dw ++ [pd]) (dw_received dw)
  else dw.

(** [close(l.done)]: a panic on a closed channel. *)
Definition chan_close (dw : DrainWorld) : DrainWorld :=
  let c := dw_chan dw in
  if ch_closed c then
    MkDrainWorld c (dw_ctl dw) (dw_printed dw) true (dw_sent dw) (dw_received dw)
  else
    MkDrainWorld (MkChan (ch_buf c) true) (dw_ctl dw) (dw_printed dw)
      (dw_panicked dw) (dw_sent dw) (dw_received dw).

(** One turn of [for pd = range l.done]: the next value when there is one,
    the end of the loop on a closed and empty channel, no progress
    otherwise. *)
Definition drain_body (dw : DrainWorld) : DrainWorld :=
  let c := dw_chan dw in
  match ch_buf c with
  | pd :: rest =>
      let printed :=
        match pt_Error pd with
        | Some e => dw_printed dw ++ [(e, pt_Args pd)]
        | None => dw_printed dw
        end in
      MkDrainWorld (MkChan rest (ch_closed c)) LoopNext printed (dw_panicked dw)
        (dw_sent dw) (dw_received dw ++ [pd])
  | [] =>
      if ch_closed c then
        MkDrainWorld c LoopExit (dw_printed dw) (dw_panicked dw) (dw_sent dw)
          (dw_received dw)
      else dw
  end.

(** What the threads around the channel do, one step each; nothing runs
    after a panic, and the loop does not run after its end. *)
Inductive DrainAction : Type :=
| DaSend (pd : ProducerTransaction)
| DaClose
| DaDrain.

Definition drain_step (dw : DrainWorld) (a : DrainAction) : DrainWorld :=
  if dw_panicked dw then dw
  else
    match a with
    | DaSend pd => chan_send pd dw
    | DaClose => chan_close dw
    | DaDrain =>
        match dw_ctl dw with
        | LoopNext => drain_body dw
        | _ => dw
        end
    end.

Definition drain_run (acts : list DrainAction) (dw : DrainWorld) : DrainWorld :=
  foldl drain_step dw acts.

(** The lines the loop prints for the transactions it receives. *)
Definition failures (l : list ProducerTransaction) : list (error * list Value) :=
  omap (λ pd, (λ e, (e, pt_Args pd)) <$> pt_Error pd) l.

(** What holds around the channel at every moment: the channel is a FIFO
    of at most [done_capacity] values, a line was printed for each failed
    transaction received, and the loop ends only on a closed and empty
    channel. *)
Record drain_inv (dw : DrainWorld) : Prop := MkDrainInv {
  di_fifo : dw_sent dw = dw_received dw ++ ch_buf (dw_chan dw);
  di_printed : dw_printed dw = failures (dw_received dw);
  di_capacity : (length (ch_buf (dw_chan dw)) <= done_capacity)%nat;
  di_exit : dw_ctl dw = LoopExit → ch_closed (dw_chan dw) = true ∧ ch_buf (dw_chan dw) = [];
  di_no_panic : dw_ctl dw ≠ LoopPanic;
}.

(** ** The logger over the stand-ins *)

Definition model_step : World → Action → World :=
  step model_NewBuffer model_LogMsgtoSegment model_EntrytoSegment stub_WriteTo
    scripted_PublishAsync scripted_Stop.

Definition model_run : list Action → World → World :=
  run model_NewBuffer model_LogMsgtoSegment model_EntrytoSegment stub_WriteTo
    scripted_PublishAsync scripted_Stop.

Definition model_Info : option nat → string → @World CapnSegment Scripted → World :=
  Info model_NewBuffer model_LogMsgtoSegment.

Definition model_Infof
    : option nat → string → list Value → @World CapnSegment Scripted → World :=
  Infof model_NewBuffer model_LogMsgtoSegment Sprintf.


Definition model_doEntry
    : option nat → Z → gmap string Value → @World CapnSegment Scripted
      → World * gmap string Value * option error :=
  doEntry model_NewBuffer model_EntrytoSegment.

(** Empty pools, checkouts that find nothing pooled, and producers: one
    that is connected, one that is not for its next [n] calls, one that was
    stopped. *)
Definition pools0 : Pools := MkPools [] [].
Definition no_pick : Picks := MkPicks None None.
Definition connected : Scripted := MkScripted [] false [].
Definition disconnected (n : nat) : Scripted :=
  MkScripted (replicate n (Some ErrNotConnected)) false [].
Definition stopped_sink : Scripted := MkScripted [] true [].

(** A logger on topic "logs" with the tag "db". *)
Definition logger0 (prod : Scripted) (p : Pools) : @World CapnSegment Scripted :=
  NewLogger "logs" "db" prod p.


(** A sink that is never connected. *)
Definition offline_PublishAsync (p : unit) (topic : string) (body : list byte)
    : unit * option error := (p, Some ErrNotConnected).

(** A configuration as the options set on it, [Set] accepting every option
    but an empty name; a producer as the address and the configuration it
    was built with. *)
Definition options_Set (c : gmap string ConfigValue) (name : string)
    (v : ConfigValue) : gmap string ConfigValue * option error :=
  if decide (name = "") then (c, Some (ErrOther "invalid option"))
  else (<[name := v]> c, None).

Definition options_NewProducer (addr : string) (c : gmap string ConfigValue)
    : string * gmap string ConfigValue := (addr, c).

(** A format without a verb. *)
Fixpoint no_percent (format : string) : bool :=
  match format with
  | EmptyString => true
  | String c rest => if decide (c = "%"%char) then false else no_percent rest
  end.

(** * Theorems *)

(** ** Slices, buffers and pools *)

Lemma slice_from0_id (s : slice) : slice_from0 s = s.
Proof. by destruct s. Qed.

Lemma contents_slice_to_0 (s : slice) : contents (slice_to s 0) = [].
Proof. reflexivity. Qed.

Lemma contents_append (s : slice) (p : list byte) :
  (len s <= cap s)%nat → contents (append s p) = contents s ++ p.
Proof.
  intros Hle. unfold append, contents. simpl.
  case_decide; simpl.
  - by rewrite take_app_length.
  - by rewrite firstn_all.
Qed.

Lemma Buffer_Truncate_0 (b : Buffer) : Buffer_Truncate b 0 = Some (Buffer_Reset b).
Proof. reflexivity. Qed.

Lemma Buffer_Len_Bytes (b : Buffer) :
  (len (buf b) <= cap (buf b))%nat → Buffer_Len b = length (Buffer_Bytes b).
Proof.
  intros Hle. unfold Buffer_Len, Buffer_Bytes, contents, cap in *.
  rewrite length_drop, length_take. lia.
Qed.

Lemma Buffer_Reset_Write_Bytes (b : Buffer) (p : list byte) :
  Buffer_Bytes (Buffer_Write (Buffer_Reset b) p) = p.
Proof.
  unfold Buffer_Bytes, Buffer_Write. simpl.
  rewrite contents_append; simpl; [done | lia].
Qed.

Lemma Buffer_Reset_Write_Len (b : Buffer) (p : list byte) :
  Buffer_Len (Buffer_Write (Buffer_Reset b) p) = length p.
Proof.
  unfold Buffer_Len, Buffer_Write, append, contents. simpl.
  case_decide; simpl; lia.
Qed.

Lemma int_incr_small (d : Z) : 0 <= d <= maxDcount → int_incr d = d + 1.
Proof.
  unfold maxDcount, int_incr, int_wrap. intros Hd.
  change (2 ^ 63) with 9223372036854775808.
  change (2 ^ 64) with 18446744073709551616.
  rewrite Z.mod_small by lia. lia.
Qed.


(** Every checkout from the buffer pool hands out a buffer that was reset. *)
Lemma getBuffer_spec (pk : Picks) (p : Pools) :
  ∃ b0 p', getBuffer pk p = Some (Buffer_Reset b0, p').
Proof.
  unfold getBuffer.
  destruct (Pool_Get (pickBuffer pk) (bufferPool p)) as [[b|] rest].
  - by eexists _, _.
  - destruct (getBytes (pickBytes pk) p) as [bs p']. by eexists _, _.
Qed.

Lemma getBuffer_pooled (pk : Picks) (p : Pools) (i : nat) (b : Buffer) :
  pickBuffer pk = Some i → bufferPool p !! i = Some b →
  getBuffer pk p
  = Some (Buffer_Reset b, MkPools (delete i (bufferPool p)) (bytesPool p)).
Proof.
  intros Hpk Hb. unfold getBuffer, Pool_Get. by rewrite Hpk, Hb.
Qed.

(** [getBytes] hands out a pooled slice as it was released. *)
Lemma getBytes_pooled (i : nat) (p : Pools) (s : slice) :
  bytesPool p !! i = Some s →
  getBytes (Some i) p = (s, MkPools (bufferPool p) (delete i (bytesPool p))).
Proof.
  intros Hs. unfold getBytes, Pool_Get. rewrite Hs. simpl.
  by rewrite slice_from0_id.
Qed.

Lemma getBytes_pool_reset (pick : option nat) (p : Pools) :
  Forall (λ s, len s = 0%nat) (bytesPool p) →
  len (getBytes pick p).1 = 0%nat
  ∧ Forall (λ s, len s = 0%nat) (bytesPool (getBytes pick p).2).
Proof.
  intros Hall. unfold getBytes, Pool_Get.
  destruct pick as [i|]; [|done].
  destruct (bytesPool p !! i) as [s|] eqn:Hs; [|done]. simpl. split.
  - by apply (Forall_lookup_1 _ _ _ _ Hall Hs).
  - by apply Forall_delete.
Qed.

Lemma getBuffer_pool_reset (pk : Picks) (p p' : Pools) (b : Buffer) :
  Forall (λ s, len s = 0%nat) (bytesPool p) →
  getBuffer pk p = Some (b, p') →
  Forall (λ s, len s = 0%nat) (bytesPool p').
Proof.
  intros Hall. unfold getBuffer.
  destruct (Pool_Get (pickBuffer pk) (bufferPool p)) as [[b1|] rest].
  - intros [= _ <-]. done.
  - destruct (getBytes_pool_reset (pickBytes pk) p Hall) as [_ Hp'].
    destruct (getBytes (pickBytes pk) p) as [bs p1]. by intros [= _ <-].
Qed.

(** Every checkout from the buffer pool succeeds and hands out an empty
    buffer; one that was pooled keeps its backing array, hence its
    capacity. *)
Lemma getBuffer_zero_length (pk : Picks) (p : Pools) :
  ∃ b p', getBuffer pk p = Some (b, p')
    ∧ Buffer_Len b = 0%nat ∧ Buffer_Bytes b = []
    ∧ ∀ i b0, pickBuffer pk = Some i → bufferPool p !! i = Some b0 →
        backing (buf b) = backing (buf b0).
Proof.
  destruct (getBuffer_spec pk p) as (b0 & p' & Hget).
  exists (Buffer_Reset b0), p'. split; [done|]. split; [done|]. split; [done|].
  intros i b1 Hpk Hb1. rewrite (getBuffer_pooled pk p i b1 Hpk Hb1) in Hget.
  injection Hget as Hb _. simpl. congruence.
Qed.

(** ** The publish loop, the facade and [Close] *)

Section FluxlogFacts.

Set Default Proof Using "Type".

Context {Segment Producer : Type}.
Variable capn_NewBuffer : slice → Segment.
Variable LogMsgtoSegment : Segment → string → LogLevel → string → Segment.
Variable EntrytoSegment : Segment → string → gmap string Value → Segment * option error.
Variable Segment_WriteTo : Segment → list byte.
Variable PublishAsync : Producer → string → list byte → Producer * option error.
Variable Producer_Stop : Producer → Producer.
Variable fmt_Sprintf : string → list Value → string.

#[local] Abbreviation World := (@World Segment Producer).
#[local] Abbreviation Event := (@Event Segment).
#[local] Abbreviation pub := (@pub Segment Producer PublishAsync).
#[local] Abbreviation loop_body := (loop_body Segment_WriteTo PublishAsync).
#[local] Abbreviation loop_step := (loop_step Segment_WriteTo PublishAsync).
#[local] Abbreviation doMsg := (@doMsg Segment Producer capn_NewBuffer LogMsgtoSegment).
#[local] Abbreviation doEntry := (@doEntry Segment Producer capn_NewBuffer EntrytoSegment).
#[local] Abbreviation close_step := (@close_step Segment Producer Producer_Stop).
#[local] Abbreviation step :=
  (step capn_NewBuffer LogMsgtoSegment EntrytoSegment Segment_WriteTo PublishAsync
     Producer_Stop).
#[local] Abbreviation run :=
  (run capn_NewBuffer LogMsgtoSegment EntrytoSegment Segment_WriteTo PublishAsync
     Producer_Stop).
#[local] Abbreviation IterOutcome := (IterOutcome Segment_WriteTo PublishAsync).
#[local] Abbreviation Inv := (@Inv Segment Producer Segment_WriteTo).
#[local] Abbreviation NewLogger := (@NewLogger Segment Producer).
#[local] Abbreviation closed_chunk := (@closed_chunk Segment).
#[local] Abbreviation shutdown_steps := (@shutdown_steps Segment).
#[local] Abbreviation sleeps := (@sleeps Segment).
#[local] Abbreviation logged := (@logged Segment).
#[local] Abbreviation topics := (@topics Segment).

(** *** The retry loop *)

Lemma pub_eq (prod : Producer) (topic : string) (body : list byte) (d : Z) :
  pub prod topic body d =
  match PublishAsync prod topic body with
  | (prod', None) => (prod', 0, [EvPublish topic body None])
  | (prod', Some ErrNotConnected) =>
      if decide (d > maxDcount)
      then (prod', d, [EvPublish topic body (Some ErrNotConnected)])
      else
        let r := pub prod' topic body (int_incr d) in
        (r.1.1, r.1.2,
         EvPublish topic body (Some ErrNotConnected) :: EvSleep 100 :: r.2)
  | (prod', Some ErrStopped) =>
      (prod', d, [EvPublish topic body (Some ErrStopped)])
  | (prod', Some (ErrOther m)) =>
      (prod', d, [EvPublish topic body (Some (ErrOther m)); EvLog (ErrOther m)])
  end.
Proof.
  funelim (pub prod topic body d); rewrite ?Heq0; try reflexivity.
  all: rewrite ?Heq; try reflexivity.
  all: case_decide; try reflexivity; try contradiction.
Qed.

(** The events of [pub]: a first attempt with the payload it was given,
    then retries of the same payload, sleeps and log lines. *)
Lemma pub_events (prod : Producer) (topic : string) (body : list byte) (d : Z) :
  ∃ r rest, (pub prod topic body d).2 = EvPublish topic body r :: rest
            ∧ Forall (retry_event topic body) rest.
Proof.
  funelim (pub prod topic body d); simpl.
  all: try (eexists _, _; split; [reflexivity|]; repeat constructor; done).
  destruct H as (r & rest & -> & Hall).
  eexists _, _; split; [reflexivity|]. repeat constructor; done.
Qed.

(** From a counter that is not negative, a record gets at most
    [maxDcount + 2] attempts, fewer when the counter has already run up. *)
Lemma pub_attempts_bound (prod : Producer) (topic : string) (body : list byte) (d : Z) :
  0 <= d →
  Z.of_nat (length (attempts (pub prod topic body d).2)) <= Z.max 1 (maxDcount + 2 - d).
Proof.
  funelim (pub prod topic body d); simpl; intros Hd; try lia.
  rewrite (int_incr_small d) in * by lia.
  specialize (H ltac:(lia)). unfold maxDcount in *. lia.
Qed.

Lemma pub_dcount_range (prod : Producer) (topic : string) (body : list byte) (d : Z) :
  0 <= d <= maxDcount + 1 → 0 <= (pub prod topic body d).1.2 <= maxDcount + 1.
Proof.
  funelim (pub prod topic body d); simpl; intros Hd; try (unfold maxDcount in *; lia).
  rewrite (int_incr_small d) in * by lia.
  apply H. unfold maxDcount in *. lia.
Qed.

(** An accepted submission leaves the counter at 0. *)
Lemma pub_success_resets (prod : Producer) (topic : string) (body : list byte) (d : Z) :
  (body, None) ∈ attempts (pub prod topic body d).2 → (pub prod topic body d).1.2 = 0.
Proof.
  funelim (pub prod topic body d); simpl; try done.
  all: rewrite ?elem_of_cons, ?elem_of_nil.
  all: try (intros [Heq'|Hin]; [discriminate Heq'|]); try done.
  auto.
Qed.

(** *** One iteration *)

Lemma loop_body_spec (pk : Picks) (st : World) :
  IterOutcome pk st (loop_body pk st).1 ∧ (loop_body pk st).2 = LoopNext.
Proof.
  unfold loop_body. case_decide as Hpc.
  { split; [by constructor | done]. }
  destruct (list_ (logger st)) as [|seg rest] eqn:Hq; simpl.
  { split; [by constructor | done]. }
  destruct (getBuffer_spec pk (pools st)) as (b0 & p1 & Hget). rewrite Hget.
  rewrite Buffer_Reset_Write_Len, Buffer_Reset_Write_Bytes.
  case_decide as Hlen.
  - split; [|done]. eapply IterDiscard; eauto. by apply length_zero_iff_nil.
  - split; [|done]. eapply IterPublish; eauto.
    intros Hnil. apply Hlen. by rewrite Hnil.
Qed.

Lemma loop_step_running (pk : Picks) (st : World) :
  loop st = LoopNext → loop_step pk st = (loop_body pk st).1.
Proof.
  intros Hrun. unfold loop_step. rewrite Hrun.
  destruct (loop_body_spec pk st) as [Hout Hctl].
  destruct (loop_body pk st) as [st' c]. simpl in *. subst c.
  destruct Hout; simpl; try rewrite <- Hrun; try done. by destruct st.
Qed.

(** *** Reading traces piecewise *)

Lemma submitted_from_retries (topic : string) (body : list byte) (evs : list Event) :
  Forall (retry_event topic body) evs → submitted_from None evs = [].
Proof.
  induction 1 as [|e evs He _ IH]; [done|].
  destruct e; simpl in *; done.
Qed.

Lemma submitted_from_app (cur : option Segment) (t evs : list Event) :
  closed_chunk evs →
  submitted_from cur (t ++ evs) = submitted_from cur t ++ submitted_from None evs.
Proof.
  intros Hevs. revert cur.
  induction t as [|e t IH]; intros cur; simpl; [apply Hevs|].
  destruct e; simpl; try (by rewrite IH).
  destruct cur; simpl; by rewrite IH.
Qed.

Lemma closed_chunk_read (seg : Segment) (evs : list Event) :
  closed_chunk (EvRead seg :: evs).
Proof. done. Qed.

Lemma closed_chunk_other (e : Event) :
  (∀ t b r, e ≠ EvPublish t b r) → closed_chunk [e].
Proof. intros He cur. destruct e; simpl; try done. by destruct (He topic body err). Qed.

(** *** The invariant *)

Lemma Inv_init (topic dbName : string) (prod : Producer) (p : Pools) :
  Inv (NewLogger topic dbName prod p).
Proof. by constructor. Qed.

(** A step that appends one event which is neither a read, a write nor a
    publish, and leaves the queue alone. *)
Lemma Inv_silent (st st' : World) (e : Event) :
  Inv st →
  loop st' = loop st → list_ (logger st') = list_ (logger st) →
  trace st' = trace st ++ [e] →
  match e with EvStop | EvCloseDone | EvSinkStop => True | _ => False end →
  Inv st'.
Proof.
  intros [Hl Hq Hs Hn] Hl' Hq' Ht He.
  constructor; rewrite ?Hl', ?Hq', ?Ht; [done| | |].
  - unfold enqueued, dequeued in *. rewrite !omap_app, Hq.
    destruct e; simpl in *; try done; by rewrite !app_nil_r.
  - unfold submitted, dequeued in *.
    rewrite submitted_from_app, Hs, omap_app
      by (apply closed_chunk_other; by destruct e).
    destruct e; simpl in *; try done; by rewrite !app_nil_r.
  - apply Forall_app; split; [done|]. constructor; [|done]. by destruct e.
Qed.

(** A write to the queue. *)
Lemma Inv_write (st st' : World) (seg : Segment) :
  Inv st →
  loop st' = loop st → list_ (logger st') = list_ (logger st) ++ [seg] →
  trace st' = trace st ++ [EvWrite seg] →
  Inv st'.
Proof.
  intros [Hl Hq Hs Hn] Hl' Hq' Ht.
  constructor; rewrite ?Hl', ?Hq', ?Ht; [done| | |].
  - unfold enqueued, dequeued in *. rewrite !omap_app, Hq. simpl.
    by rewrite app_nil_r, app_assoc.
  - unfold submitted, dequeued in *.
    rewrite submitted_from_app, Hs, omap_app by by apply closed_chunk_other.
    simpl. by rewrite !app_nil_r.
  - apply Forall_app; split; [done|]. by repeat constructor.
Qed.

Lemma omap_retries {A} (f : Event → option A) (topic : string) (body : list byte)
    (evs : list Event) :
  Forall (retry_event topic body) evs →
  (∀ e, retry_event topic body e → f e = None) →
  omap f evs = [].
Proof.
  intros Hretry Hf. induction Hretry as [|e evs' He _ IH]; [done|].
  simpl. by rewrite (Hf e He).
Qed.

Lemma Inv_loop_step (pk : Picks) (st : World) : Inv st → Inv (loop_step pk st).
Proof.
  intros HI. rewrite loop_step_running by apply HI.
  destruct (loop_body_spec pk st) as [Hout _].
  destruct Hout as [Hpc|Hpc Hq|seg rest b0 p1 Hpc Hq Hget Hw|seg rest b0 p1 Hpc Hq Hget Hw].
  - by eapply (Inv_silent st _ EvStop).
  - done.
  - destruct HI as [Hl Hqi Hs Hn]. constructor; simpl; [done| | |].
    + unfold enqueued, dequeued in *. rewrite !omap_app, Hqi, Hq. simpl.
      by rewrite app_nil_r, <- app_assoc.
    + unfold submitted, dequeued in *.
      rewrite submitted_from_app, Hs, omap_app by apply closed_chunk_read.
      simpl. rewrite filter_app, filter_cons_False, filter_nil by (by intros ?).
      by rewrite !app_nil_r.
    + apply Forall_app; split; [done|]. by repeat constructor.
  - destruct HI as [Hl Hqi Hs Hn]. subst l r.
    destruct (pub_events (w (logger st)) (Topic (logger st)) (Segment_WriteTo seg)
                (dcount st)) as (r0 & evs & Hev & Hretry).
    constructor; cbv zeta; simpl; rewrite ?Hev; [done| | |].
    + unfold enqueued, dequeued in *. rewrite !omap_app, Hqi, Hq. simpl.
      rewrite !(omap_retries _ _ _ _ Hretry) by (intros [] He; simpl in *; done).
      by rewrite !app_nil_r, <- app_assoc.
    + unfold submitted, dequeued in *.
      rewrite <- app_assoc. simpl.
      rewrite submitted_from_app, Hs, omap_app by apply closed_chunk_read.
      simpl. rewrite (submitted_from_retries _ _ _ Hretry).
      rewrite (omap_retries _ _ _ _ Hretry) by (intros [] He; simpl in *; done).
      rewrite filter_app, filter_cons_True, filter_nil by done.
      by rewrite fmap_app.
    + rewrite <- app_assoc. apply Forall_app; split; [done|].
      constructor; [done|]. constructor; [done|].
      eapply Forall_impl; [exact Hretry|].
      intros [] He; simpl in *; try done. by destruct He as [_ ->].
Qed.

Lemma Inv_doMsg (pick : option nat) (level : LogLevel) (message : string) (st : World) :
  Inv st → Inv (doMsg pick level message st).
Proof.
  intros HI. unfold doMsg.
  destruct (getBytes pick (pools st)) as [b p1].
  by eapply Inv_write.
Qed.

Lemma Inv_doEntry (pick : option nat) (now : Z) (e : gmap string Value) (st : World) :
  Inv st → Inv (doEntry pick now e st).1.1.
Proof.
  intros HI. unfold doEntry.
  destruct (getBytes pick (pools st)) as [b p1].
  destruct (EntrytoSegment _ _ _) as [seg [err|]]; simpl.
  - by destruct HI.
  - by eapply Inv_write.
Qed.

Lemma Inv_close_step (st : World) : Inv st → Inv (close_step st).
Proof.
  intros HI. unfold close_step.
  destruct (close_pc st); try done.
  - by destruct HI.
  - by eapply (Inv_silent st _ EvCloseDone).
  - by eapply (Inv_silent st _ EvSinkStop).
Qed.

Lemma Inv_step (a : Action) (st : World) : Inv st → Inv (step st a).
Proof.
  destruct a; simpl.
  - apply Inv_loop_step.
  - apply Inv_doMsg.
  - apply Inv_doEntry.
  - apply Inv_close_step.
Qed.

Lemma Inv_run (acts : list Action) (st : World) : Inv st → Inv (run acts st).
Proof.
  revert st. induction acts as [|a acts IH]; intros st HI; [done|].
  simpl. apply IH, Inv_step, HI.
Qed.

(** *** Properties of every interleaving *)

(** The publish loop never leaves its [for]: no iteration ends in an exit
    or a panic, whatever the queue, the pools, the sink and [Close] do. *)
Lemma loop_never_stops (topic dbName : string) (prod : Producer) (p : Pools)
    (acts : list Action) :
  loop (run acts (NewLogger topic dbName prod p)) = LoopNext.
Proof. apply Inv_run, Inv_init. Qed.

(** C4. Records reach the sink in the order in which they were written to
    the queue.  In every interleaving of callers, loop and [Close]: what
    the loop has read is a prefix of what was written, the rest is still
    queued in order; the records submitted are, in the same order, the
    records read that render to at least one byte, each submitted with its
    own rendering; so the records submitted are a subsequence of the
    records written. *)
Theorem submission_order_is_enqueue_order (topic dbName : string) (prod : Producer)
    (p : Pools) (acts : list Action) :
  let st := run acts (NewLogger topic dbName prod p) in
  let t := trace st in
  enqueued t = dequeued t ++ list_ (logger st)
  ∧ dequeued t `prefix_of` enqueued t
  ∧ (submitted t).*1 = filter (λ s, Segment_WriteTo s ≠ []) (dequeued t)
  ∧ Forall (λ sb, sb.2 = Segment_WriteTo sb.1) (submitted t)
  ∧ (submitted t).*1 `sublist_of` enqueued t.
Proof.
  destruct (Inv_run acts _ (Inv_init topic dbName prod p)) as [_ Hq Hs _].
  simpl. rewrite Hs, Hq, <- list_fmap_compose.
  split; [done|]. split; [by eexists|]. split; [by rewrite list_fmap_id|].
  split.
  - by apply Forall_fmap, Forall_true.
  - rewrite list_fmap_id. apply sublist_inserts_r, sublist_filter.
Qed.

(** C7. No publish attempt of any interleaving carries an empty payload,
    and a record read from the queue whose rendering is empty is not among
    the records submitted. *)
Theorem empty_rendering_never_submitted (topic dbName : string) (prod : Producer)
    (p : Pools) (acts : list Action) :
  let t := trace (run acts (NewLogger topic dbName prod p)) in
  Forall publish_nonempty t
  ∧ Forall (λ sb, Segment_WriteTo sb.1 ≠ [] ∧ sb.2 = Segment_WriteTo sb.1) (submitted t)
  ∧ Forall (λ s, Segment_WriteTo s = [] → s ∉ (submitted t).*1) (dequeued t).
Proof.
  destruct (Inv_run acts _ (Inv_init topic dbName prod p)) as [_ _ Hs Hn].
  simpl. rewrite Hs. split; [done|]. split.
  - apply Forall_fmap, Forall_forall. intros s Hin.
    apply list_elem_of_filter in Hin as [Hw _]. by simpl.
  - apply Forall_forall. intros s _ Hw Hin.
    rewrite <- list_fmap_compose in Hin.
    apply list_elem_of_fmap in Hin as (s' & -> & Hin').
    apply list_elem_of_filter in Hin' as [Hw' _]. by simpl in *.
Qed.

(** An iteration that reads a record with an empty rendering drops it:
    nothing is published and the buffer it checked out stays out of the
    pool. *)
Lemma loop_body_discard (pk : Picks) (st : World) (seg : Segment) (rest : list Segment) :
  close_pc st ≠ CloseSending → list_ (logger st) = seg :: rest →
  Segment_WriteTo seg = [] →
  ∃ b p1, getBuffer pk (pools st) = Some (b, p1)
    ∧ (loop_body pk st).1
      = MkWorld (set_list rest (logger st)) p1 (dcount st) (loop st) (close_pc st)
          (trace st ++ [EvRead seg]).
Proof.
  intros Hpc Hq Hw. destruct (loop_body_spec pk st) as [Hout _].
  destruct Hout as [?|? Hq'|seg' rest' b0 p1 _ Hq' Hget Hw'|seg' rest' b0 p1 _ Hq' Hget Hw'];
    try congruence.
  rewrite Hq in Hq'. injection Hq' as <- <-. by eexists _, _.
Qed.

(** An iteration that reads a record with a rendering publishes it and puts
    the buffer back, whatever the sink answers. *)
Lemma loop_body_returns_buffer (pk : Picks) (st : World) (seg : Segment)
    (rest : list Segment) :
  close_pc st ≠ CloseSending → list_ (logger st) = seg :: rest →
  Segment_WriteTo seg ≠ [] →
  ∃ b p1, getBuffer pk (pools st) = Some (b, p1)
    ∧ pools (loop_body pk st).1 = putBuffer (Buffer_Write b (Segment_WriteTo seg)) p1.
Proof.
  intros Hpc Hq Hw. destruct (loop_body_spec pk st) as [Hout _].
  destruct Hout as [?|? Hq'|seg' rest' b0 p1 _ Hq' Hget Hw'|seg' rest' b0 p1 _ Hq' Hget Hw'];
    try congruence.
  rewrite Hq in Hq'. injection Hq' as <- <-. by eexists _, _.
Qed.

(** *** The order of the shutdown *)

Lemma step_shutdown (a : Action) (st : World) :
  shutdown_steps (trace st) = steps_done (close_pc st) →
  shutdown_steps (trace (step st a)) = steps_done (close_pc (step st a)).
Proof.
  intros Hst. unfold shutdown_steps in *.
  destruct a as [pk|pick level message|pick now e|]; simpl.
  - unfold loop_step. destruct (loop st); try done.
    destruct (loop_body_spec pk st) as [Hout _].
    destruct (loop_body pk st) as [st' c]. simpl in *.
    destruct Hout as [Hpc|?|seg rest b0 p1 _ _ _ _|seg rest b0 p1 _ _ _ _];
      simpl; rewrite ?omap_app, ?Hst; simpl; rewrite ?app_nil_r; try done.
    + by rewrite Hpc.
    + subst l r.
      destruct (pub_events (w (logger st)) (Topic (logger st)) (Segment_WriteTo seg)
                  (dcount st)) as (r0 & evs & -> & Hretry).
      simpl. rewrite (omap_retries _ _ _ _ Hretry) by (intros [] He; simpl in *; done).
      by rewrite app_nil_r.
  - unfold doMsg. destruct (getBytes pick (pools st)) as [b p1]. simpl.
    by rewrite omap_app, Hst, app_nil_r.
  - unfold doEntry. destruct (getBytes pick (pools st)) as [b p1].
    destruct (EntrytoSegment _ _ _) as [seg [err|]]; simpl; [done|].
    by rewrite omap_app, Hst, app_nil_r.
  - unfold close_step.
    destruct (close_pc st) eqn:Hpc; simpl; rewrite ?omap_app, ?Hst, ?Hpc; done.
Qed.

(** In every interleaving the trace shows the steps of the shutdown in the
    order of [Close]: the loop receives the signal, then the completion
    channel is closed, then the sink is stopped. *)
Lemma shutdown_order (topic dbName : string) (prod : Producer) (p : Pools)
    (acts : list Action) :
  let st := run acts (NewLogger topic dbName prod p) in
  shutdown_steps (trace st) = steps_done (close_pc st).
Proof.
  simpl. generalize (NewLogger topic dbName prod p),
    (eq_refl : shutdown_steps (trace (NewLogger topic dbName prod p))
               = steps_done (close_pc (NewLogger topic dbName prod p))).
  induction acts as [|a acts IH]; intros st Hst; [done|].
  simpl. by apply IH, step_shutdown.
Qed.

(** *** The byte slices the package pools *)

Lemma step_bytesPool (a : Action) (st : World) :
  Forall (λ s, len s = 0%nat) (bytesPool (pools st)) →
  Forall (λ s, len s = 0%nat) (bytesPool (pools (step st a))).
Proof.
  intros Hall. destruct a as [pk|pick level message|pick now e|]; simpl.
  - unfold loop_step. destruct (loop st); try done.
    destruct (loop_body_spec pk st) as [Hout _].
    destruct (loop_body pk st) as [st' c]. simpl in *.
    destruct Hout as [|?|seg rest b0 p1 _ _ Hget _|seg rest b0 p1 _ _ Hget _];
      simpl; try done.
    all: by eapply getBuffer_pool_reset.
  - unfold doMsg.
    destruct (getBytes_pool_reset pick (pools st) Hall) as [Hlen Hrest].
    destruct (getBytes pick (pools st)) as [b p1]. simpl in *. by constructor.
  - unfold doEntry.
    destruct (getBytes_pool_reset pick (pools st) Hall) as [Hlen Hrest].
    destruct (getBytes pick (pools st)) as [b p1].
    destruct (EntrytoSegment _ _ _) as [seg [err|]]; simpl in *; [done|].
    by constructor.
  - unfold close_step. by destruct (close_pc st).
Qed.

Lemma run_bytesPool (acts : list Action) (st : World) :
  Forall (λ s, len s = 0%nat) (bytesPool (pools st)) →
  Forall (λ s, len s = 0%nat) (bytesPool (pools (run acts st))).
Proof.
  revert st. induction acts as [|a acts IH]; intros st Hall; [done|].
  simpl. by apply IH, step_bytesPool.
Qed.

(** The facade only ever returns to the pool the empty slice it checked
    out: from empty pools, every pooled byte slice has length 0 in every
    interleaving, and so has every slice [getBytes] hands out. *)
Lemma pooled_bytes_stay_empty (topic dbName : string) (prod : Producer)
    (bufs : list Buffer) (acts : list Action) (pick : option nat) :
  let p := pools (run acts (NewLogger topic dbName prod (MkPools bufs []))) in
  Forall (λ s, len s = 0%nat) (bytesPool p) ∧ len (getBytes pick p).1 = 0%nat.
Proof.
  simpl.
  assert (Hall : Forall (λ s, len s = 0%nat)
                   (bytesPool (pools (run acts
                      (NewLogger topic dbName prod (MkPools bufs [])))))).
  { by apply run_bytesPool. }
  split; [done|]. by apply getBytes_pool_reset.
Qed.

(** *** The facade *)

(** [doMsg] writes exactly one segment, the encoding of its arguments with
    the logger's tag. *)
Lemma doMsg_enqueues_one (pick : option nat) (level : LogLevel) (message : string)
    (st : World) :
  let seg := LogMsgtoSegment (capn_NewBuffer (getBytes pick (pools st)).1)
               (DbName (logger st)) level message in
  list_ (logger (doMsg pick level message st)) = list_ (logger st) ++ [seg]
  ∧ trace (doMsg pick level message st) = trace st ++ [EvWrite seg].
Proof.
  unfold doMsg. by destruct (getBytes pick (pools st)) as [b p1].
Qed.

(** C10. [doEntry] returns the encoder's error and writes the segment to
    the queue exactly when there is none: on an error the queue and the
    trace are as before, otherwise the encoded segment is appended. *)
Theorem doEntry_enqueues_iff_encoded (pick : option nat) (now : Z)
    (e : gmap string Value) (st : World) :
  let e' := <["time" := VInt64 now]> e in
  let enc := EntrytoSegment (capn_NewBuffer (getBytes pick (pools st)).1)
               (DbName (logger st)) e' in
  let r := doEntry pick now e st in
  r.2 = enc.2 ∧ r.1.2 = e'
  ∧ match enc.2 with
    | Some _ =>
        list_ (logger r.1.1) = list_ (logger st) ∧ trace r.1.1 = trace st
    | None =>
        list_ (logger r.1.1) = list_ (logger st) ++ [enc.1]
        ∧ trace r.1.1 = trace st ++ [EvWrite enc.1]
    end.
Proof.
  unfold doEntry. destruct (getBytes pick (pools st)) as [b p1]. simpl.
  by destruct (EntrytoSegment _ _ _) as [seg [err|]].
Qed.

(** A formatted method is the plain method of its level on
    [fmt.Sprintf(format, args)], [args] being one operand. *)
Lemma formatted_is_plain_on_slice (level : LogLevel) (pick : option nat)
    (format : string) (args : list Value) (st : World) :
  formatted capn_NewBuffer LogMsgtoSegment fmt_Sprintf level pick format args st
  = plain capn_NewBuffer LogMsgtoSegment level pick
      (fmt_Sprintf format [VSlice args]) st.
Proof. unfold formatted, plain. by repeat case_decide. Qed.

(** *** More on the retry loop *)

(** Between two attempts for a record the loop sleeps once, 100ms; it
    prints an error exactly for an answer that is neither nil, "not
    connected" nor "stopped". *)
Lemma pub_sleeps_and_logs (prod : Producer) (topic : string) (body : list byte) (d : Z) :
  let evs := (pub prod topic body d).2 in
  sleeps evs = replicate (length (attempts evs) - 1) 100
  ∧ logged evs
    = omap (λ a, match a.2 with
                 | Some (ErrOther m) => Some (ErrOther m)
                 | _ => None
                 end) (attempts evs).
Proof.
  funelim (pub prod topic body d); simpl; try done.
  destruct H as [Hs Hl]. rewrite Hs, Hl.
  destruct (pub_events prod' topic body (int_incr d)) as (r0 & rest & -> & _).
  simpl. by rewrite Nat.sub_0_r.
Qed.

(** While the sink is not connected a record gets [maxDcount + 2] attempts
    less the failures already counted, at least one, and the counter ends
    at [maxDcount + 1] or where it was: abandoning a record resets
    nothing. *)
Lemma pub_offline (prod : Producer) (topic : string) (body : list byte) (d : Z) :
  (∀ p t b, (PublishAsync p t b).2 = Some ErrNotConnected) →
  0 <= d →
  attempts (pub prod topic body d).2
  = replicate (Z.to_nat (Z.max 1 (maxDcount + 2 - d))) (body, Some ErrNotConnected)
  ∧ (pub prod topic body d).1.2 = Z.max d (maxDcount + 1).
Proof.
  intros Hoff.
  funelim (pub prod topic body d); simpl; intros Hd;
    try (specialize (Hoff prod topic body);
         match goal with Hq : PublishAsync _ _ _ = _ |- _ => rewrite Hq in Hoff end;
         discriminate Hoff).
  - replace (Z.to_nat (Z.max 1 (maxDcount + 2 - d))) with 1%nat
      by (unfold maxDcount in *; lia).
    split; [done|]. unfold maxDcount in *. lia.
  - rewrite (int_incr_small d) in * by lia.
    destruct (H Hoff ltac:(lia)) as [Ha Hc]. rewrite Ha, Hc.
    replace (Z.to_nat (Z.max 1 (maxDcount + 2 - d)))
      with (S (Z.to_nat (Z.max 1 (maxDcount + 2 - (d + 1)))))
      by (unfold maxDcount in *; lia).
    split; [done|]. unfold maxDcount in *. lia.
Qed.

(** *** The counter, the topic and the tag *)

Lemma step_dcount (a : Action) (st : World) :
  0 <= dcount st <= maxDcount + 1 →
  0 <= dcount (step st a) <= maxDcount + 1.
Proof.
  intros Hd. destruct a as [pk|pick level message|pick now e|]; simpl.
  - unfold loop_step. destruct (loop st); try done.
    destruct (loop_body_spec pk st) as [Hout _].
    destruct (loop_body pk st) as [st' c]. simpl in *.
    destruct Hout; simpl; try done.
    by apply pub_dcount_range.
  - unfold doMsg. by destruct (getBytes pick (pools st)).
  - unfold doEntry. destruct (getBytes pick (pools st)).
    by destruct (EntrytoSegment _ _ _) as [seg [err|]].
  - unfold close_step. by destruct (close_pc st).
Qed.

(** The disconnect counter stays between 0 and [maxDcount + 1] in every
    interleaving. *)
Lemma dcount_bounded (topic dbName : string) (prod : Producer) (p : Pools)
    (acts : list Action) :
  0 <= dcount (run acts (NewLogger topic dbName prod p)) <= maxDcount + 1.
Proof.
  assert (H0 : 0 <= dcount (NewLogger topic dbName prod p) <= maxDcount + 1)
    by (simpl; unfold maxDcount; lia).
  revert H0. generalize (NewLogger topic dbName prod p).
  induction acts as [|a acts IH]; intros st Hst; [done|].
  simpl. by apply IH, step_dcount.
Qed.

Lemma step_topic (topic dbName : string) (a : Action) (st : World) :
  Topic (logger st) = topic ∧ DbName (logger st) = dbName
  ∧ Forall (λ t, t = topic) (topics (trace st)) →
  Topic (logger (step st a)) = topic ∧ DbName (logger (step st a)) = dbName
  ∧ Forall (λ t, t = topic) (topics (trace (step st a))).
Proof.
  intros (Ht & Hdb & Hall). unfold topics in *.
  destruct a as [pk|pick level message|pick now e|]; simpl.
  - unfold loop_step. destruct (loop st); try done.
    destruct (loop_body_spec pk st) as [Hout _].
    destruct (loop_body pk st) as [st' c]. simpl in *.
    destruct Hout as [|?|seg rest b0 p1 _ _ _ _|seg rest b0 p1 _ _ _ _];
      simpl; rewrite ?omap_app, ?Forall_app; simpl; try done.
    subst l r.
    destruct (pub_events (w (logger st)) (Topic (logger st)) (Segment_WriteTo seg)
                (dcount st)) as (r0 & evs & -> & Hretry).
    simpl. repeat split; try done. constructor; [done|].
    clear -Hretry Ht. induction Hretry as [|e evs' He _ IH]; [done|].
    destruct e; simpl in *; try done. constructor; [|done].
    destruct He as [-> _]. done.
  - unfold doMsg. destruct (getBytes pick (pools st)). simpl.
    rewrite omap_app, Forall_app. by repeat split.
  - unfold doEntry. destruct (getBytes pick (pools st)).
    destruct (EntrytoSegment _ _ _) as [seg [err|]]; simpl; [done|].
    rewrite omap_app, Forall_app. by repeat split.
  - unfold close_step.
    destruct (close_pc st); simpl; rewrite ?omap_app, ?Forall_app; by repeat split.
Qed.

(** A logger keeps its topic and its tag, and every publish attempt of
    every interleaving goes to that topic. *)
Lemma publishes_to_own_topic (topic dbName : string) (prod : Producer) (p : Pools)
    (acts : list Action) :
  let st := run acts (NewLogger topic dbName prod p) in
  Topic (logger st) = topic ∧ DbName (logger st) = dbName
  ∧ Forall (λ t, t = topic) (topics (trace st)).
Proof.
  simpl.
  assert (H0 : Topic (logger (NewLogger topic dbName prod p)) = topic
               ∧ DbName (logger (NewLogger topic dbName prod p)) = dbName
               ∧ Forall (λ t, t = topic) (topics (trace (NewLogger topic dbName prod p))))
    by (by repeat split).
  revert H0. generalize (NewLogger topic dbName prod p).
  induction acts as [|a acts IH]; intros st Hst; [done|].
  simpl. by apply IH, step_topic.
Qed.

(** *** Every record gets its turn *)

Lemma run_app (acts1 acts2 : list Action) (st : World) :
  run (acts1 ++ acts2) st = run acts2 (run acts1 st).
Proof. apply foldl_app. Qed.

(** With no stop signal pending, [n] iterations empty a queue of at most
    [n] records, whatever the sink answers. *)
Lemma loop_empties_queue (pk : Picks) (n : nat) (st : World) :
  loop st = LoopNext → close_pc st ≠ CloseSending →
  (length (list_ (logger st)) <= n)%nat →
  list_ (logger (run (replicate n (ActLoop pk)) st)) = [].
Proof.
  revert st. induction n as [|n IH]; intros st Hrun Hpc Hlen.
  { simpl. destruct (list_ (logger st)); [done|simpl in Hlen; lia]. }
  simpl. rewrite loop_step_running by done.
  destruct (loop_body_spec pk st) as [Hout _].
  destruct Hout as [?|? Hq|seg rest b0 p1 _ Hq _ _|seg rest b0 p1 _ Hq _ _];
    try done.
  - apply IH; try done. rewrite Hq. simpl. lia.
  - apply IH; try done. rewrite Hq in Hlen. simpl in *. lia.
  - apply IH; try done. rewrite Hq in Hlen. simpl in *. lia.
Qed.

(** Whatever has happened, letting the loop run one iteration more than
    there are records queued empties the queue, and then every record ever
    written that renders to something has been submitted, in the order of
    writing: neither [Close] nor a stopped or disconnected sink keeps a
    queued record from its publish attempt. *)
Lemma every_record_attempted (topic dbName : string) (prod : Producer) (p : Pools)
    (acts : list Action) (pk : Picks) :
  let st := run acts (NewLogger topic dbName prod p) in
  let st' := run (replicate (S (length (list_ (logger st)))) (ActLoop pk)) st in
  list_ (logger st') = []
  ∧ (submitted (trace st')).*1
    = filter (λ s, Segment_WriteTo s ≠ []) (enqueued (trace st')).
Proof.
  simpl.
  set (st := run acts (NewLogger topic dbName prod p)).
  assert (HI : Inv st) by apply Inv_run, Inv_init.
  assert (Hempty : list_ (logger (run (replicate (length (list_ (logger st)))
                                         (ActLoop pk)) (loop_step pk st))) = []).
  { rewrite loop_step_running by apply HI.
    destruct (loop_body_spec pk st) as [Hout _].
    destruct Hout as [Hpc|Hpc Hq|seg rest b0 p1 Hpc Hq _ _|seg rest b0 p1 Hpc Hq _ _].
    - apply loop_empties_queue; simpl; [apply HI|done|done].
    - apply loop_empties_queue; [apply HI|done|done].
    - apply loop_empties_queue; simpl; [apply HI|done|]. rewrite Hq. simpl. lia.
    - apply loop_empties_queue; simpl; [apply HI|done|]. rewrite Hq. simpl. lia. }
  split; [exact Hempty|].
  assert (HI' : Inv (run (replicate (length (list_ (logger st))) (ActLoop pk))
                       (loop_step pk st))) by by apply Inv_run, Inv_loop_step.
  destruct HI' as [_ Hq Hs _]. rewrite Hempty, app_nil_r in Hq.
  rewrite Hs, Hq, <- list_fmap_compose. by rewrite list_fmap_id.
Qed.

(** *** What the facade does to the pools *)

(** [doMsg] puts the slice it checked out back; [doEntry] does so when the
    encoder takes the entry and keeps it out of the pool when the encoder
    rejects the entry. *)
Lemma facade_pool_effect (pick : option nat) (level : LogLevel) (message : string)
    (now : Z) (e : gmap string Value) (st : World) :
  let got := getBytes pick (pools st) in
  pools (doMsg pick level message st) = putBytes got.1 got.2
  ∧ pools (doEntry pick now e st).1.1
    = match (doEntry pick now e st).2 with
      | Some _ => got.2
      | None => putBytes got.1 got.2
      end.
Proof.
  unfold doMsg, doEntry. destruct (getBytes pick (pools st)) as [b p1]. simpl.
  split; [done|]. by destruct (EntrytoSegment _ _ _) as [seg [err|]].
Qed.

End FluxlogFacts.

(** ** The pools, put and get *)

(** A buffer that is put back and handed out again comes back reset, a byte
    slice comes back as it was; either way the pool is as before. *)
Lemma pool_round_trip (b : Buffer) (s : slice) (p : Pools) (pb : option nat) :
  getBuffer (MkPicks (Some 0%nat) pb) (putBuffer b p) = Some (Buffer_Reset b, p)
  ∧ getBytes (Some 0%nat) (putBytes s p) = (s, p).
Proof.
  split.
  - rewrite (getBuffer_pooled _ _ 0%nat b) by done. by destruct p.
  - rewrite (getBytes_pooled 0%nat _ s) by done. by destruct p.
Qed.

(** ** Construction *)

Section ConstructionFacts.

Context {Segment Producer Config : Type}.
Variable Config_Set : Config → string → ConfigValue → Config * option error.
Variable nsq_NewProducer : string → Config → Producer.
Variable Producer_SetLogger : Producer → Producer.

#[local] Abbreviation NewLogger_cfg :=
  (@NewLogger_cfg Segment Producer Config Config_Set nsq_NewProducer Producer_SetLogger).

(** [NewLogger] fails exactly when a secret is given and [Set] rejects it,
    and then with the error of [Set]; without a secret the configuration is
    left alone; the logger it returns is on the topic and the tag given,
    over a producer built from the configuration as the call leaves it,
    with an empty queue and a counter of 0. *)
Lemma NewLogger_cfg_outcome (topic dbName nsqdAddr secret : string) (cfg : Config)
    (p : Pools) :
  let r := NewLogger_cfg topic dbName nsqdAddr secret cfg p in
  let set := Config_Set cfg "auth_secret" (CString secret) in
  ((∃ e, r.2 = inr e) ↔ secret ≠ "" ∧ is_Some set.2)
  ∧ (∀ e, r.2 = inr e → set.2 = Some e)
  ∧ (secret = "" → r.1 = cfg)
  ∧ (∀ lw, r.2 = inl lw →
       lw = NewLogger topic dbName
              (Producer_SetLogger (nsq_NewProducer nsqdAddr r.1)) p).
Proof.
  simpl. unfold NewLogger_cfg.
  case_decide as Hs.
  - destruct (Config_Set cfg "auth_secret" (CString secret)) as [cfg1 [e|]]; simpl.
    + split; [split; [by eauto|by eauto]|]. split; [by intros ? [= ->]|].
      split; [done|]. by intros lw.
    + split; [split; [by intros [e He]|by intros [_ [e He]]]|].
      split; [done|]. split; [done|]. by intros lw [= <-].
  - simpl. split; [split; [by intros [e He]|by intros [? _]]|].
    split; [done|]. split; [done|]. by intros lw [= <-].
Qed.

(** The configuration is shared: the secret that one call of [NewLogger]
    has set is in the configuration from which a later call without a
    secret builds its producer. *)
Lemma secret_persists (topic dbName nsqdAddr secret topic2 dbName2 nsqdAddr2 : string)
    (cfg : Config) (p p2 : Pools) :
  secret ≠ "" →
  let cfg1 := (Config_Set cfg "auth_secret" (CString secret)).1 in
  let r1 := NewLogger_cfg topic dbName nsqdAddr secret cfg p in
  NewLogger_cfg topic2 dbName2 nsqdAddr2 "" r1.1 p2
  = (cfg1, inl (NewLogger topic2 dbName2
                  (Producer_SetLogger (nsq_NewProducer nsqdAddr2 cfg1)) p2)).
Proof.
  intros Hs. simpl. unfold NewLogger_cfg.
  destruct (decide (secret ≠ "")) as [_|Hn]; [|done].
  destruct (decide ("" ≠ "")) as [Hn|_]; [done|].
  by destruct (Config_Set cfg "auth_secret" (CString secret)) as [cfg1 [e|]].
Qed.

End ConstructionFacts.

(** ** The second goroutine *)

Lemma failures_app (l1 l2 : list ProducerTransaction) :
  failures (l1 ++ l2) = failures l1 ++ failures l2.
Proof. unfold failures. apply omap_app. Qed.

Lemma drain_inv_init : drain_inv drain_init.
Proof. constructor; simpl; try done. unfold done_capacity. lia. Qed.

Lemma drain_step_inv (a : DrainAction) (dw : DrainWorld) :
  drain_inv dw → drain_inv (drain_step dw a).
Proof.
  intros HI. pose proof HI as [Hf Hp Hc He Hn]. unfold drain_step.
  destruct (dw_panicked dw); [exact HI|].
  destruct a as [pd| |].
  - unfold chan_send. destruct (ch_closed (dw_chan dw)) eqn:Hcl.
    { constructor; simpl; rewrite ?Hcl; done. }
    case_decide as Hlen; [|exact HI].
    constructor; simpl; try done.
    + by rewrite Hf, app_assoc.
    + rewrite length_app. simpl. lia.
    + intros Hex. destruct (He Hex) as [Hcl' _]. congruence.
  - unfold chan_close. destruct (ch_closed (dw_chan dw)) eqn:Hcl.
    { constructor; simpl; rewrite ?Hcl; done. }
    constructor; simpl; try done.
    intros Hex. destruct (He Hex) as [Hcl' _]. congruence.
  - destruct (dw_ctl dw) eqn:Hctl; [|exact HI|exact HI].
    unfold drain_body.
    destruct (ch_buf (dw_chan dw)) as [|pd rest] eqn:Hbuf.
    + destruct (ch_closed (dw_chan dw)) eqn:Hcl; [|exact HI].
      constructor; simpl; rewrite ?Hbuf; done.
    + constructor; simpl; try done.
      * by rewrite Hf, <- app_assoc.
      * rewrite failures_app, <- Hp. unfold failures. simpl.
        destruct (pt_Error pd); simpl; by rewrite ?app_nil_r.
      * simpl in Hc. lia.
Qed.

Lemma drain_run_inv (acts : list DrainAction) (dw : DrainWorld) :
  drain_inv dw → drain_inv (drain_run acts dw).
Proof.
  revert dw. induction acts as [|a acts IH]; intros dw HI; [done|].
  simpl. by apply IH, drain_step_inv.
Qed.

(** The second goroutine prints one line for each failed transaction it
    receives, in the order in which the producer sent them, and none for
    the others; the channel never holds more than 16 transactions; and once
    the loop has ended, it has printed the failures among all the
    transactions ever sent. *)
Lemma drain_prints_failures (acts : list DrainAction) :
  let dw := drain_run acts drain_init in
  dw_sent dw = dw_received dw ++ ch_buf (dw_chan dw)
  ∧ dw_printed dw = failures (dw_received dw)
  ∧ (length (ch_buf (dw_chan dw)) <= 16)%nat
  ∧ (dw_ctl dw = LoopExit → dw_printed dw = failures (dw_sent dw)).
Proof.
  destruct (drain_run_inv acts _ drain_inv_init) as [Hf Hp Hc He _].
  simpl. repeat split; try done.
  intros Hex. destruct (He Hex) as [_ Hbuf].
  by rewrite Hf, Hbuf, app_nil_r.
Qed.

Lemma drain_stays_exited (m : nat) (dw : DrainWorld) :
  dw_ctl dw = LoopExit → drain_run (replicate m DaDrain) dw = dw.
Proof.
  intros Hex. induction m as [|m IH]; [done|].
  change (drain_run (replicate (S m) DaDrain) dw)
    with (drain_run (replicate m DaDrain) (drain_step dw DaDrain)).
  assert (Hstep : drain_step dw DaDrain = dw).
  { unfold drain_step. rewrite Hex. by destruct (dw_panicked dw). }
  by rewrite Hstep.
Qed.

Lemma drain_exits (n : nat) (dw : DrainWorld) :
  drain_inv dw → ch_closed (dw_chan dw) = true → dw_panicked dw = false →
  (length (ch_buf (dw_chan dw)) < n)%nat →
  let dw' := drain_run (replicate n DaDrain) dw in
  dw_ctl dw' = LoopExit ∧ dw_sent dw' = dw_sent dw.
Proof.
  revert dw. induction n as [|n IH]; intros dw HI Hcl Hpan Hlen; [lia|].
  cbv zeta.
  change (drain_run (replicate (S n) DaDrain) dw)
    with (drain_run (replicate n DaDrain) (drain_step dw DaDrain)).
  assert (HI' : drain_inv (drain_step dw DaDrain)) by by apply drain_step_inv.
  revert HI'. unfold drain_step. rewrite Hpan.
  destruct (dw_ctl dw) eqn:Hctl.
  - unfold drain_body.
    destruct (ch_buf (dw_chan dw)) as [|pd rest] eqn:Hbuf.
    + rewrite Hcl. intros _. by rewrite drain_stays_exited.
    + intros HI'. destruct (IH _ HI') as [H1 H2]; simpl; try done.
      simpl in Hlen. lia.
  - intros _. by rewrite drain_stays_exited.
  - by destruct (di_no_panic _ HI).
Qed.

(** Unlike the publish loop, the second goroutine ends: once the channel is
    closed and nothing has panicked, one turn more than there are
    transactions buffered ends the loop, with a line printed for every
    failed transaction ever sent. *)
Lemma drain_terminates (acts : list DrainAction) :
  let dw := drain_run acts drain_init in
  ch_closed (dw_chan dw) = true → dw_panicked dw = false →
  let dw' := drain_run (replicate (S (length (ch_buf (dw_chan dw)))) DaDrain) dw in
  dw_ctl dw' = LoopExit ∧ dw_printed dw' = failures (dw_sent dw).
Proof.
  cbv zeta. intros Hcl Hpan.
  set (dw := drain_run acts drain_init) in *.
  assert (HI : drain_inv dw) by apply drain_run_inv, drain_inv_init.
  destruct (drain_exits (S (length (ch_buf (dw_chan dw)))) dw HI Hcl Hpan ltac:(lia))
    as (Hex & Hsent).
  split; [exact Hex|].
  assert (HI' : drain_inv (drain_run (replicate (S (length (ch_buf (dw_chan dw)))) DaDrain) dw))
    by by apply drain_run_inv.
  destruct HI' as [Hf Hp _ He _]. destruct (He Hex) as [_ Hbuf].
  rewrite Hp, <- Hsent, Hf, Hbuf. by rewrite app_nil_r.
Qed.


(** ** The formatted methods *)

Lemma Sprintf_no_verb (format : string) (a : list Value) :
  no_percent format = true → Sprintf format a = format +:+ extra a.
Proof.
  induction format as [|c rest IH]; [done|].
  simpl no_percent. case_decide as Hc; [done|]. intros Hrest.
  assert (Hstep : Sprintf (String c rest) a = String c (Sprintf rest a)).
  { destruct c as [[] [] [] [] [] [] [] []]; try reflexivity.
    by destruct Hc. }
  rewrite Hstep, IH by done. reflexivity.
Qed.

(** A formatted method never logs the text of a format that has no verb as
    it is: the argument slice, even an empty one, is an operand that no
    verb uses, and [fmt.Sprintf] appends it as %!(EXTRA ...). *)
Lemma formatted_appends_extra {Segment Producer : Type}
    (capn_NewBuffer : slice → Segment)
    (LogMsgtoSegment : Segment → string → LogLevel → string → Segment)
    (level : LogLevel) (pick : option nat) (format : string) (args : list Value)
    (st : @World Segment Producer) :
  no_percent format = true →
  formatted capn_NewBuffer LogMsgtoSegment Sprintf level pick format args st
  = plain capn_NewBuffer LogMsgtoSegment level pick
      (format +:+ "%!(EXTRA []interface {}=" +:+ fmt_value "v" (VSlice args) +:+ ")") st.
Proof.
  intros Hfmt. rewrite formatted_is_plain_on_slice.
  by rewrite (Sprintf_no_verb format [VSlice args] Hfmt).
Qed.

(** ** The code at concrete inputs *)

(** [fmt.Sprintf] on operands that are spread, and on one slice operand. *)
Example Sprintf_spread : Sprintf "%d items" [VInt 3] = "3 items".
Proof. vm_compute. reflexivity. Qed.

Example Sprintf_slice : Sprintf "%d items" [VSlice [VInt 3]] = "[3] items".
Proof. vm_compute. reflexivity. Qed.

Example Sprintf_no_operand : Sprintf "hello" [VSlice []] = "hello%!(EXTRA []interface {}=[])".
Proof. vm_compute. reflexivity. Qed.

(** C1. A record whose first eleven publish attempts fail with "not
    connected" gets a twelfth attempt: here the twelfth is accepted, so the
    record is delivered, not dropped.  The loop gives up only when a
    twelfth attempt fails too: eleven retries, one more than [maxDcount]. *)
Theorem eleven_disconnects_then_twelfth_attempt :
  let body := String.list_byte_of_string "disk full" in
  let st := model_run [ActMsg None ERROR "disk full"; ActLoop no_pick]
              (logger0 (disconnected 11) pools0) in
  let st' := model_run [ActMsg None ERROR "disk full"; ActLoop no_pick]
               (logger0 (disconnected 20) pools0) in
  attempts (trace st) = replicate 11 (body, Some ErrNotConnected) ++ [(body, None)]
  ∧ accepted (w (logger st)) = [("logs", body)]
  ∧ dcount st = 0
  ∧ attempts (trace st') = replicate 12 (body, Some ErrNotConnected)
  ∧ dcount st' = 11.
Proof. vm_compute. repeat split; reflexivity. Qed.

(** C2. [Close] runs while a record is queued: the loop receives the stop
    signal, [Close] closes the completion channel and stops the sink, and
    the loop, still running, reads the record and publishes it. *)
Theorem publish_after_stop_signal :
  let seg := SegLogMsg "db" INFO "hello" in
  let st := model_run [ActMsg None INFO "hello"; ActClose; ActLoop no_pick;
                       ActClose; ActClose; ActLoop no_pick]
              (logger0 connected pools0) in
  trace st = [EvWrite seg; EvStop; EvCloseDone; EvSinkStop; EvRead seg;
              EvPublish "logs" (String.list_byte_of_string "hello") (Some ErrStopped)]
  ∧ close_pc st = CloseReturned
  ∧ loop st = LoopNext.
Proof. vm_compute. repeat split; reflexivity. Qed.

(** C3. The sink answers "stopped" to the first record; the loop goes on,
    reads the second record and publishes it as well. *)
Theorem reads_continue_after_sink_stopped :
  let a := SegLogMsg "db" INFO "a" in
  let b := SegLogMsg "db" INFO "b" in
  let st := model_run [ActMsg None INFO "a"; ActMsg None INFO "b";
                       ActLoop no_pick; ActLoop no_pick]
              (logger0 stopped_sink pools0) in
  trace st = [EvWrite a; EvWrite b;
              EvRead a; EvPublish "logs" (String.list_byte_of_string "a") (Some ErrStopped);
              EvRead b; EvPublish "logs" (String.list_byte_of_string "b") (Some ErrStopped)]
  ∧ loop st = LoopNext.
Proof. vm_compute. repeat split; reflexivity. Qed.

(** C5. A byte slice that went back to the pool with two bytes in it comes
    out of [getBytes] with the same two bytes: [bytes[0:]] resets nothing. *)
Theorem getBytes_keeps_length :
  let s := Slice [Byte.x68; Byte.x69; Byte.x00; Byte.x00] 2 in
  let got := (getBytes (Some 0%nat) (putBytes s pools0)).1 in
  got = s ∧ len got = 2%nat ∧ contents got = [Byte.x68; Byte.x69].
Proof. vm_compute. repeat split; reflexivity. Qed.

(** C6. The loop checks out the only pooled buffer for a record that
    renders to nothing; the iteration publishes nothing and the buffer is
    not put back.  For a record with a rendering it is. *)
Theorem empty_rendering_leaks_buffer :
  let b0 := bytes_NewBuffer (make_bytes 0 4) in
  let pk := MkPicks (Some 0%nat) None in
  let st := model_run [ActMsg None INFO ""; ActLoop pk]
              (logger0 connected (MkPools [b0] [])) in
  let st' := model_run [ActMsg None INFO "a"; ActLoop pk]
               (logger0 connected (MkPools [b0] [])) in
  bufferPool (pools st) = [] ∧ dequeued (trace st) = [SegLogMsg "db" INFO ""]
  ∧ attempts (trace st) = []
  ∧ length (bufferPool (pools st')) = 1%nat.
Proof. vm_compute. repeat split; reflexivity. Qed.

(** C9. [Infof("%d items", 3)] logs "[3] items"; [Info] on
    [fmt.Sprintf("%d items", 3)] logs "3 items". *)
Theorem Infof_formats_the_slice :
  list_ (logger (model_Infof None "%d items" [VInt 3] (logger0 connected pools0)))
  = [SegLogMsg "db" INFO "[3] items"]
  ∧ list_ (logger (model_Info None (Sprintf "%d items" [VInt 3])
                     (logger0 connected pools0)))
    = [SegLogMsg "db" INFO "3 items"].
Proof. vm_compute. split; reflexivity. Qed.



(** [doEntry] on an entry the encoder takes, and on one it rejects. *)
Example doEntry_encoded :
  let r := model_doEntry None 1700000000 {[ "host" := VString "a" ]}
             (logger0 connected pools0) in
  r.2 = None
  ∧ segment_time <$> list_ (logger r.1.1) = [Some (VInt64 1700000000)]
  ∧ r.1.2 !! "time" = Some (VInt64 1700000000).
Proof. vm_compute. repeat split; reflexivity. Qed.

Example doEntry_rejected :
  let r := model_doEntry None 1700000000 {[ "tags" := VSlice [] ]}
             (logger0 connected pools0) in
  r.2 = Some (ErrOther "unsupported value")
  ∧ list_ (logger r.1.1) = [] ∧ trace r.1.1 = [].
Proof. vm_compute. repeat split; reflexivity. Qed.

(** ** Instances of the conditional facts *)

Lemma pub_attempts_bound_witness :
  0 <= 0
  ∧ Z.of_nat (length (attempts
        (@pub CapnSegment Scripted scripted_PublishAsync (disconnected 20) "logs"
           [Byte.x61] 0).2))
    <= Z.max 1 (maxDcount + 2 - 0).
Proof.
  split; [lia|].
  apply (@pub_attempts_bound CapnSegment Scripted scripted_PublishAsync). lia.
Defined.

Lemma pub_success_resets_witness :
  let r := @pub CapnSegment Scripted scripted_PublishAsync (disconnected 2) "logs"
             [Byte.x61] 0 in
  ([Byte.x61], None) ∈ attempts r.2 ∧ r.1.2 = 0.
Proof.
  assert (Hin : ([Byte.x61], None)
                ∈ attempts (@pub CapnSegment Scripted scripted_PublishAsync
                              (disconnected 2) "logs" [Byte.x61] 0).2).
  { vm_compute. repeat constructor. }
  split; [exact Hin|].
  exact (pub_success_resets scripted_PublishAsync _ _ _ _ Hin).
Defined.

Lemma loop_body_returns_buffer_witness :
  let st := model_run [ActMsg None INFO "a"] (logger0 connected pools0) in
  ∃ b p1, getBuffer no_pick (pools st) = Some (b, p1)
    ∧ pools (loop_body stub_WriteTo scripted_PublishAsync no_pick st).1
      = putBuffer (Buffer_Write b (stub_WriteTo (SegLogMsg "db" INFO "a"))) p1.
Proof.
  apply (loop_body_returns_buffer stub_WriteTo scripted_PublishAsync no_pick
           (model_run [ActMsg None INFO "a"] (logger0 connected pools0))
           (SegLogMsg "db" INFO "a") []).
  - vm_compute. discriminate.
  - vm_compute. reflexivity.
  - vm_compute. discriminate.
Defined.

Lemma getBytes_pooled_witness :
  let s := Slice [Byte.x68; Byte.x69] 2 in
  let p := putBytes s pools0 in
  bytesPool p !! 0%nat = Some s
  ∧ getBytes (Some 0%nat) p = (s, MkPools (bufferPool p) (delete 0%nat (bytesPool p))).
Proof.
  split; [reflexivity|]. apply getBytes_pooled. reflexivity.
Defined.

Lemma formatted_appends_extra_witness :
  no_percent "disk full" = true
  ∧ formatted model_NewBuffer model_LogMsgtoSegment Sprintf ERROR None "disk full" []
      (logger0 connected pools0)
    = plain model_NewBuffer model_LogMsgtoSegment ERROR None
        ("disk full" +:+ "%!(EXTRA []interface {}=" +:+ fmt_value "v" (VSlice []) +:+ ")")
        (logger0 connected pools0).
Proof.
  split; [reflexivity|]. apply formatted_appends_extra. reflexivity.
Defined.

Lemma pub_offline_witness :
  (∀ p t b, (offline_PublishAsync p t b).2 = Some ErrNotConnected)
  ∧ 0 <= 11
  ∧ attempts (@pub CapnSegment unit offline_PublishAsync () "logs" [Byte.x61] 11).2
    = replicate (Z.to_nat (Z.max 1 (maxDcount + 2 - 11))) ([Byte.x61], Some ErrNotConnected)
  ∧ (@pub CapnSegment unit offline_PublishAsync () "logs" [Byte.x61] 11).1.2
    = Z.max 11 (maxDcount + 1).
Proof.
  split; [done|]. split; [lia|].
  apply (@pub_offline CapnSegment unit offline_PublishAsync); [done|lia].
Defined.

Lemma secret_persists_witness :
  "s3cret" ≠ ""
  ∧ @NewLogger_cfg CapnSegment _ _ options_Set options_NewProducer id
      "logs2" "db2" "host2:4150" ""
      (@NewLogger_cfg CapnSegment _ _ options_Set options_NewProducer id
         "logs" "db" "host:4150" "s3cret" ∅ pools0).1 pools0
    = ((options_Set ∅ "auth_secret" (CString "s3cret")).1,
       inl (NewLogger "logs2" "db2"
              (id (options_NewProducer "host2:4150"
                     (options_Set ∅ "auth_secret" (CString "s3cret")).1)) pools0)).
Proof.
  split; [done|].
  apply (@secret_persists CapnSegment _ _ options_Set options_NewProducer id). done.
Defined.

Lemma drain_terminates_witness :
  let acts := [DaSend (MkTransaction (Some ErrStopped) [VString "logs"]);
               DaSend (MkTransaction None []); DaClose] in
  let dw := drain_run acts drain_init in
  ch_closed (dw_chan dw) = true ∧ dw_panicked dw = false
  ∧ dw_ctl (drain_run (replicate (S (length (ch_buf (dw_chan dw)))) DaDrain) dw) = LoopExit
  ∧ dw_printed (drain_run (replicate (S (length (ch_buf (dw_chan dw)))) DaDrain) dw)
    = failures (dw_sent dw).
Proof.
  split; [reflexivity|]. split; [reflexivity|].
  apply (drain_terminates [DaSend (MkTransaction (Some ErrStopped) [VString "logs"]);
                           DaSend (MkTransaction None []); DaClose]); reflexivity.
Defined.

(** The secret of the first logger in the configuration of the second
    producer, and the lines the second goroutine prints. *)
Example second_producer_has_secret :
  (@NewLogger_cfg CapnSegment _ _ options_Set options_NewProducer id
     "logs2" "db2" "host2:4150" ""
     (@NewLogger_cfg CapnSegment _ _ options_Set options_NewProducer id
        "logs" "db" "host:4150" "s3cret" ∅ pools0).1 pools0).1 !! "auth_secret"
  = Some (CString "s3cret").
Proof. vm_compute. reflexivity. Qed.

Example drain_prints_one_line :
  dw_printed (drain_run [DaSend (MkTransaction (Some ErrStopped) [VString "logs"]);
                         DaSend (MkTransaction None []); DaClose;
                         DaDrain; DaDrain; DaDrain] drain_init)
  = [(ErrStopped, [VString "logs"])].
Proof. reflexivity. Qed.
